(** * gentranslate: the translation-patching tool, embedded in Rocq

    A shallow embedding of the parts of the repository that its
    specification talks about:

    - [src/index.ts], the translation utilities: [TranslationKeyValue],
      [LLMTranslation], [Language] and [TranslationJson];
    - [src/utilities/common.utils.ts]: [SafeAsync];
    - [src/tools/translation.tools.ts], the orchestrator: loading the
      files, finding the language of a file, the per-file task;
    - the earlier single-file version of the tool: [TranslationJsonFile],
      [Batch], [Language] and [SafeAsync].

    JavaScript values are modelled as far as the code inspects them.
    Objects are lists of own enumerable properties in [Object.entries]
    order; members inherited from [Object.prototype] ([__proto__] and
    the like) are not part of the model.  Code that can throw returns an
    [outcome].  Logging is left out. *)

From Stdlib Require Import String Ascii List Arith Lia Bool ZArith NArith.
From Stdlib Require Import DecimalString Permutation.
Import ListNotations.
Open Scope string_scope.
Open Scope nat_scope.
Open Scope list_scope.

(** ** JavaScript preliminaries *)

Module Js.

(** The errors the modelled code can meet. *)
Inductive error : Type :=
| TypeError                 (* property access on null *)
| RangeError                (* Array.from({ length: Infinity }) *)
| SyntaxError               (* JSON.parse on malformed text *)
| Error (message : string). (* new Error(message), rejected promises *)

(** Result of running a piece of code: a normal completion, an abrupt
    one, or a step this development does not model (property writes on
    an Array, whose [length] setter needs floating-point [ToNumber]). *)
Inductive outcome (A : Type) : Type :=
| Ret (a : A)
| Throw (e : error)
| Unmodelled.
Arguments Ret {A} a.
Arguments Throw {A} e.
Arguments Unmodelled {A}.

Definition bind {A B : Type} (c : outcome A) (k : A -> outcome B) : outcome B :=
  match c with
  | Ret a => k a
  | Throw e => Throw e
  | Unmodelled => Unmodelled
  end.

(** JSON.parse results.  The payload of a number is never inspected. *)
#[local] Unset Elimination Schemes.
Inductive json : Type :=
| JNull
| JBool (b : bool)
| JNum (n : Z)
| JStr (s : string)
| JArr (items : list json)
| JObj (props : list (string * json)).
#[local] Set Elimination Schemes.

(** A [Record<string, string | object>]: own properties in order. *)
Definition record : Type := list (string * json).

(** [String(i)] for a non-negative integer. *)
Definition String_of_nat (i : nat) : string :=
  NilEmpty.string_of_uint (Nat.to_uint i).

(** [s.split('.')]: never empty, [''.split('.')] is [['']]. *)
Fixpoint split_dot (s : string) : list string :=
  match s with
  | EmptyString => [EmptyString]
  | String c rest =>
      if Ascii.eqb c "."%char then EmptyString :: split_dot rest
      else match split_dot rest with
           | seg :: segs => String c seg :: segs
           | [] => [String c EmptyString]
           end
  end.

(** Whether a key contains a ['.']. *)
Fixpoint has_dot (s : string) : bool :=
  match s with
  | EmptyString => false
  | String c rest => Ascii.eqb c "."%char || has_dot rest
  end.

(** [keys.join('.')]. *)
Fixpoint join_dot (keys : list string) : string :=
  match keys with
  | [] => EmptyString
  | [k] => k
  | k :: rest => (k ++ "." ++ join_dot rest)%string
  end.

(** Association lists keyed by strings (first binding wins). *)
Section Assoc.
Context {A : Type}.

Fixpoint assoc (k : string) (m : list (string * A)) : option A :=
  match m with
  | [] => None
  | (k', v) :: rest => if String.eqb k k' then Some v else assoc k rest
  end.

Definition has (k : string) (m : list (string * A)) : bool :=
  match assoc k m with Some _ => true | None => false end.

(** Overwrite the binding of a key that is present, in place. *)
Fixpoint update (k : string) (v : A) (m : list (string * A)) : list (string * A) :=
  match m with
  | [] => []
  | (k', v') :: rest =>
      if String.eqb k k' then (k', v) :: rest else (k', v') :: update k v rest
  end.
End Assoc.

(** An array index: a canonical decimal numeral below 2^32 - 1.
    Ordinary objects list such keys first, in ascending order. *)
Definition array_index (k : string) : option N :=
  match NilEmpty.uint_of_string k with
  | Some u =>
      let n := N.of_uint u in
      if String.eqb (NilEmpty.string_of_uint (N.to_uint n)) k
         && (n <? 4294967295)%N
      then Some n else None
  | None => None
  end.

(** A new array-index key goes before the first key that is not an array
    index or is a greater one. *)
Fixpoint insert_index (n : N) (k : string) (v : json) (m : record) : record :=
  match m with
  | [] => [(k, v)]
  | (k', v') :: rest =>
      match array_index k' with
      | Some n' =>
          if (n' <? n)%N then (k', v') :: insert_index n k v rest
          else (k, v) :: m
      | None => (k, v) :: m
      end
  end.

(** [obj[k] = v] on an ordinary object. *)
Definition obj_set (k : string) (v : json) (m : record) : record :=
  if has k m then update k v m
  else match array_index k with
       | Some n => insert_index n k v m
       | None => m ++ [(k, v)]
       end.

(** The own properties a read of [arr[k]] can see on an Array produced
    by JSON.parse: its elements under their indices, and [length]. *)
Definition array_props (items : list json) : record :=
  combine (map String_of_nat (seq 0 (length items))) items
    ++ [("length", JNum (Z.of_nat (length items)))].

(** A JavaScript [Map<string, string>]: insertion order, [set] on a key
    that is present keeps its position. *)
Definition Map : Type := list (string * string).

Definition Map_set (k v : string) (m : Map) : Map :=
  if has k m then update k v m else m ++ [(k, v)].

(** [s.toLowerCase()] on the ASCII letters.  No character outside ASCII
    lower-cases to one of the letters of ['xhosa'], so the comparison
    below has the same result as in JavaScript. *)
Definition lower_ascii (c : ascii) : ascii :=
  let n := nat_of_ascii c in
  if (65 <=? n) && (n <=? 90) then ascii_of_nat (n + 32) else c.

Fixpoint toLowerCase (s : string) : string :=
  match s with
  | EmptyString => EmptyString
  | String c rest => String (lower_ascii c) (toLowerCase rest)
  end.

(** The replacement text of [String.prototype.replace] with a string
    pattern (no captures): [$$], [$&], [$`] and [$'] are expanded. *)
Fixpoint GetSubstitution (matched before after replacement : string) : string :=
  match replacement with
  | EmptyString => EmptyString
  | String c rest =>
      if Ascii.eqb c "$"%char then
        match rest with
        | String d rest' =>
            if Ascii.eqb d "$"%char then
              String "$" (GetSubstitution matched before after rest')
            else if Ascii.eqb d "&"%char then
              (matched ++ GetSubstitution matched before after rest')%string
            else if Ascii.eqb d "`"%char then
              (before ++ GetSubstitution matched before after rest')%string
            else if Ascii.eqb d "'"%char then
              (after ++ GetSubstitution matched before after rest')%string
            else String c (GetSubstitution matched before after rest)
        | EmptyString => String c EmptyString
        end
      else String c (GetSubstitution matched before after rest)
  end.

(** A replacement text without ['$']. *)
Fixpoint no_dollar (s : string) : bool :=
  match s with
  | EmptyString => true
  | String c rest => negb (Ascii.eqb c "$"%char) && no_dollar rest
  end.

(** [s.replace(pattern, replacement)]: the first occurrence only. *)
Definition replace (s pattern replacement : string) : string :=
  match String.index 0 pattern s with
  | None => s
  | Some i =>
      let before := String.substring 0 i s in
      let j := i + String.length pattern in
      let after := String.substring j (String.length s - j) s in
      (before ++ GetSubstitution pattern before after replacement ++ after)%string
  end.

End Js.

Export Js.

Declare Scope outcome_scope.
Delimit Scope outcome_scope with outcome.
Notation "x <- c ;; k" := (bind c (fun x => k))
  (at level 61, c at next level, right associativity) : outcome_scope.
Open Scope outcome_scope.

(** ** [TranslationKeyValue] (src/index.ts) *)

Record TranslationKeyValue : Type := mkKV { key : string; value : string }.

(** ** [Language] (src/index.ts)

    [LANGUAGE_ENTRIES] is imported from a constants file; the table below
    is the one the earlier version of the tool carries in its [Language]
    class. *)

Module Language.

Definition entries : list (string * string) :=
  [("af", "Afrikaans"); ("ak", "Akan"); ("sq", "Albanian");
   ("am", "Amharic"); ("ar", "Arabic"); ("hy", "Armenian");
   ("as", "Assamese"); ("ay", "Aymara"); ("az", "Azerbaijani");
   ("bm", "Bambara"); ("eu", "Basque"); ("be", "Belarusian");
   ("bn", "Bengali"); ("bho", "Bhojpuri"); ("bs", "Bosnian");
   ("bg", "Bulgarian"); ("ca", "Catalan"); ("ceb", "Cebuano");
   ("ny", "Chichewa"); ("zh", "Chinese (Simplified)");
   ("zh-TW", "Chinese (Traditional)"); ("zh-CN", "Chinese (Simplified)");
   ("co", "Corsican"); ("hr", "Croatian"); ("cs", "Czech"); ("da", "Danish");
   ("dv", "Divehi"); ("doi", "Dogri"); ("nl", "Dutch"); ("en", "English");
   ("eo", "Esperanto"); ("et", "Estonian"); ("ee", "Ewe");
   ("tl", "Filipino"); ("fi", "Finnish"); ("fr", "French");
   ("fy", "Frisian"); ("gl", "Galician"); ("lg", "Ganda");
   ("ka", "Georgian"); ("de", "German"); ("gom", "Goan Konkani");
   ("el", "Greek"); ("gn", "Guarani"); ("gu", "Gujarati");
   ("ht", "Haitian Creole"); ("ha", "Hausa"); ("haw", "Hawaiian");
   ("he", "Hebrew"); ("iw", "Hebrew"); ("hi", "Hindi"); ("hmn", "Hmong");
   ("hu", "Hungarian"); ("is", "Icelandic"); ("ig", "Igbo");
   ("ilo", "Iloko"); ("id", "Indonesian"); ("ga", "Irish");
   ("it", "Italian"); ("ja", "Japanese"); ("jw", "Javanese");
   ("jv", "Javanese"); ("kn", "Kannada"); ("kk", "Kazakh"); ("km", "Khmer");
   ("rw", "Kinyarwanda"); ("ko", "Korean"); ("kri", "Krio");
   ("ku", "Kurdish (Kurmanji)"); ("ckb", "Kurdish (Sorani)");
   ("ky", "Kyrgyz"); ("lo", "Lao"); ("la", "Latin"); ("lv", "Latvian");
   ("ln", "Lingala"); ("lt", "Lithuanian"); ("lb", "Luxembourgish");
   ("mk", "Macedonian"); ("mai", "Maithili"); ("mg", "Malagasy");
   ("ms", "Malay"); ("ml", "Malayalam"); ("mt", "Maltese");
   ("mni-Mte", "Manipuri (Meitei Mayek)"); ("mi", "Maori");
   ("mr", "Marathi"); ("lus", "Mizo"); ("mn", "Mongolian");
   ("my", "Myanmar (Burmese)"); ("ne", "Nepali"); ("nso", "Northern Sotho");
   ("no", "Norwegian"); ("or", "Odia (Oriya)"); ("om", "Oromo");
   ("ps", "Pashto"); ("fa", "Persian"); ("pl", "Polish");
   ("pt", "Portuguese"); ("pa", "Punjabi"); ("qu", "Quechua");
   ("ro", "Romanian"); ("ru", "Russian"); ("sm", "Samoan");
   ("sa", "Sanskrit"); ("gd", "Scots Gaelic"); ("sr", "Serbian");
   ("st", "Sesotho"); ("sn", "Shona"); ("sd", "Sindhi"); ("si", "Sinhala");
   ("sk", "Slovak"); ("sl", "Slovenian"); ("so", "Somali");
   ("es", "Spanish"); ("su", "Sundanese"); ("sw", "Swahili");
   ("sv", "Swedish"); ("tg", "Tajik"); ("ta", "Tamil"); ("tt", "Tatar");
   ("te", "Telugu"); ("th", "Thai"); ("ti", "Tigrinya"); ("ts", "Tsonga");
   ("tr", "Turkish"); ("tk", "Turkmen"); ("uk", "Ukrainian"); ("ur", "Urdu");
   ("ug", "Uyghur"); ("uz", "Uzbek"); ("vi", "Vietnamese"); ("cy", "Welsh");
   ("xh", "Xhosa"); ("yi", "Yiddish"); ("yo", "Yoruba"); ("zu", "Zulu")].

(** [getLanguageByCode(code)]: an empty name counts as missing. *)
Definition getLanguageByCode (code : string) : option (string * string) :=
  match assoc code entries with
  | Some name =>
      match name with
      | EmptyString => None
      | _ => Some (code, name)
      end
  | None => None
  end.

(** The language of a translation file, from its file name
    ([getLanguageCodeByTranslationJson], src/tools/translation.tools.ts). *)
Definition ofFileName (fileName : string) : option (string * string) :=
  getLanguageByCode (replace fileName ".json" EmptyString).

End Language.

(** ** [TranslationJson] (src/index.ts)

    The instance state is its [json] field, a [record]. *)

Module TranslationJson.

(** [Object.values(this.json).every((v) => typeof v === 'string')]. *)
Definition isFlat (this_json : record) : bool :=
  forallb (fun kv => match snd kv with JStr _ => true | _ => false end) this_json.

(** [setJsonValue(obj, keys, value)].  [typeof null] is ['object'], so a
    null child is kept and the recursive call then dereferences it. *)
Fixpoint setJsonValue (obj : record) (keys : list string) (value : json)
  : outcome record :=
  match keys with
  | [] => Ret obj
  | [k] => Ret (obj_set k value obj)
  | firstKey :: restKeys =>
      match assoc firstKey obj with
      | Some (JObj child) =>
          child' <- setJsonValue child restKeys value ;;
          Ret (obj_set firstKey (JObj child') obj)
      | Some JNull => Throw TypeError
      | Some (JArr _) => Unmodelled
      | _ =>
          (* add new object if not exists *)
          let obj1 := obj_set firstKey (JObj []) obj in
          child' <- setJsonValue [] restKeys value ;;
          Ret (obj_set firstKey (JObj child') obj1)
      end
  end.

Definition setValue (this_json : record) (key value : string) : outcome record :=
  if isFlat this_json then Ret (obj_set key (JStr value) this_json)
  else setJsonValue this_json (split_dot key) (JStr value).

(** [getJsonValue(obj, keys)]; [None] is [undefined]. *)
Fixpoint getJsonValue (obj : record) (keys : list string) : outcome (option string) :=
  match keys with
  | [] => Ret None
  | [k] =>
      match assoc k obj with
      | Some (JStr s) => Ret (Some s)
      | _ => Ret None
      end
  | firstKey :: restKeys =>
      match assoc firstKey obj with
      | Some (JObj child) => getJsonValue child restKeys
      | Some (JArr items) => getJsonValue (array_props items) restKeys
      | Some JNull => Throw TypeError
      | _ => Ret None
      end
  end.

Definition getValue (this_json : record) (key : string) : outcome TranslationKeyValue :=
  if isFlat this_json then
    Ret (mkKV key (match assoc key this_json with Some (JStr s) => s | _ => EmptyString end))
  else
    value <- getJsonValue this_json (split_dot key) ;;
    Ret (mkKV key (match value with Some s => s | None => EmptyString end)).

(** The key under which a string leaf is recorded. *)
Definition fullKey (parentKeys : list string) (key : string) : string :=
  match parentKeys with
  | [] => key
  | _ => (join_dot parentKeys ++ "." ++ key)%string
  end.

(** [flattenJson(object, parentKeys, result)].  [isObject] holds of
    mappings and of null; [Object.entries(null)] throws.  No other value
    is ever passed as [object]. *)
Fixpoint flattenJson (object : json) (parentKeys : list string) (result : Map)
  {struct object} : outcome Map :=
  match object with
  | JObj entries =>
      (fix loop (entries : list (string * json)) (result : Map) {struct entries}
         : outcome Map :=
         match entries with
         | [] => Ret result
         | (key, value) :: entries' =>
             match value with
             | JObj _ | JNull =>
                 result' <- flattenJson value (parentKeys ++ [key]) result ;;
                 loop entries' result'
             | JStr s => loop entries' (Map_set (fullKey parentKeys key) s result)
             | _ => loop entries' result
             end
         end) entries result
  | JNull => Throw TypeError
  | _ => Unmodelled
  end.

Definition flatten (this_json : record) : outcome Map :=
  flattenJson (JObj this_json) [] [].

(** [diff(other)]: two loops pushing onto [diff]. *)
Definition diff (this_json other_json : record) : outcome (list TranslationKeyValue) :=
  selfMap <- flatten this_json ;;
  otherMap <- flatten other_json ;;
  let diff1 :=
    fold_left
      (fun (diff : list TranslationKeyValue) (e : string * string) =>
         let (selfKey, selfValue) := e in
         match assoc selfKey otherMap with
         | None => diff ++ [mkKV selfKey selfValue]
         | Some otherValue =>
             if String.eqb otherValue selfValue then diff
             else diff ++ [mkKV selfKey selfValue]
         end)
      selfMap [] in
  (* check for keys in other that are not in self *)
  let diff2 :=
    fold_left
      (fun (diff : list TranslationKeyValue) (e : string * string) =>
         let (otherKey, otherValue) := e in
         if has otherKey selfMap then diff
         else diff ++ [mkKV otherKey otherValue])
      otherMap diff1 in
  Ret diff2.

End TranslationJson.

(** ** [TranslationJsonFile] (the earlier version of the tool) *)

Module TranslationJsonFile.

(** [set(obj, keys, value)]: always recursive, no flat test. *)
Fixpoint set (obj : record) (keys : list string) (value : json) : outcome record :=
  match keys with
  | [] => Ret obj
  | [k] => Ret (obj_set k value obj)
  | firstKey :: restKeys =>
      match assoc firstKey obj with
      | Some (JObj child) =>
          child' <- set child restKeys value ;;
          Ret (obj_set firstKey (JObj child') obj)
      | Some JNull => Throw TypeError
      | Some (JArr _) => Unmodelled
      | _ =>
          let obj1 := obj_set firstKey (JObj []) obj in
          child' <- set [] restKeys value ;;
          Ret (obj_set firstKey (JObj child') obj1)
      end
  end.

Definition setValue (this_value : record) (key : string) (value : json)
  : outcome record :=
  let keys := split_dot key in
  set this_value keys value.

End TranslationJsonFile.

(** ** [Batch] (the earlier version of the tool) and [Array.prototype.slice] *)

(** [items.slice(a, b)] for [0 <= a]. *)
Definition slice {T : Type} (items : list T) (a b : nat) : list T :=
  firstn (b - a) (skipn a items).

Module Batch.

(** The loop of [create]: [for (let i = 0; i < this.items.length;
    i += options.batchSize)].  It does not terminate when [batchSize]
    is 0 and there are items, hence the fuel. *)
Fixpoint create_loop {T : Type} (fuel : nat) (items : list T) (batchSize i : nat)
  (batch : list (list T)) : option (list (list T)) :=
  if i <? length items then
    match fuel with
    | 0 => None
    | S fuel' =>
        create_loop fuel' items batchSize (i + batchSize)
          (batch ++ [slice items i (i + batchSize)])
    end
  else Some batch.

(** [new Batch(items).create({ batchSize })] on a fresh instance. *)
Definition create {T : Type} (fuel : nat) (items : list T) (batchSize : nat)
  : option (list (list T)) :=
  create_loop fuel items batchSize 0 [].

End Batch.

(** ** [SafeAsync] (src/utilities/common.utils.ts) *)

Module SafeAsync.

(** How a promise settles. *)
Inductive settled (T : Type) : Type :=
| Fulfilled (v : T)
| Rejected (e : error).
Arguments Fulfilled {T} v.
Arguments Rejected {T} e.

(** What [run] resolves to: [{ result, errors }], [None] for null. *)
Record report (T : Type) : Type :=
  mkReport { result : option T; errors : list error }.
Arguments mkReport {T} result errors.
Arguments result {T} r.
Arguments errors {T} r.

(** The instance after [run]: its public [errors] field, and the
    back-off delays it waited for, in milliseconds. *)
Record instance : Type :=
  mkInstance { this_errors : list error; delays : list nat }.

(** [Math.pow(2, i) * 1000]. *)
Definition backoff (i : nat) : nat := 2 ^ i * 1000.

Section Run.
Context {W T : Type}.

(** [fn]: an operation with effects on the world [W]. *)
Variable fn : W -> settled T * W.
Variable retries : nat.

(** The [for] loop from iteration [i] on; [n] counts the iterations
    left, [retries - i]. *)
Fixpoint loop (n i : nat) (this : instance) (w : W)
  : settled (report T) * instance * W :=
  match n with
  | 0 => (Fulfilled (mkReport None (this_errors this)), this, w)
  | S n' =>
      match fn w with
      | (Fulfilled v, w') => (Fulfilled (mkReport (Some v) []), this, w')
      | (Rejected e, w') =>
          let this1 := mkInstance (this_errors this ++ [e]) (delays this) in
          if i =? retries - 1 then
            (* break *)
            (Fulfilled (mkReport None (this_errors this1)), this1, w')
          else
            let this2 :=
              mkInstance (this_errors this1) (delays this1 ++ [backoff i]) in
            loop n' (S i) this2 w'
      end
  end.

Definition run (this : instance) (w : W) : settled (report T) * instance * W :=
  loop retries 0 this w.

(** The operation called [k] times in a row: [Some (es, w')] when
    every call rejects, with the errors [es] in order and the world
    [w'] they leave; [None] as soon as one call fulfils. *)
Fixpoint rejections (k : nat) (w : W) : option (list error * W) :=
  match k with
  | 0 => Some ([], w)
  | S k' =>
      match fn w with
      | (Rejected e, w1) =>
          match rejections k' w1 with
          | Some (es, w') => Some (e :: es, w')
          | None => None
          end
      | (Fulfilled _, _) => None
      end
  end.
End Run.

(** [new SafeAsync(fn, retries)], and the default budget. *)
Definition fresh : instance := mkInstance [] [].
Definition default_retries : nat := 3.

End SafeAsync.

(** ** [LLMTranslation] (src/index.ts) *)

Module LLMTranslation.

Definition dq : string := String "034" EmptyString.
Definition nl : string := String "010" EmptyString.

(** [LLM_SYSTEM_PROMPT], cut at its placeholder. *)
Definition prompt_head : string :=
  "You are a professional translator for a Trade-in POS (Point of Sale) SaaS application. Translate the following UI text strings from English to ".

Definition prompt_tail : string :=
  ("." ++ nl ++
   nl ++
   "Domain context:" ++ nl ++
   "- This is a buyback/trade-in platform where customers sell used items (phones, electronics, etc.)" ++ nl ++
   "- Offer types describe HOW items are traded in (in-store, by mail, etc.)" ++ nl ++
   "- Use standard/formal register appropriate for business software" ++ nl ++
   nl ++
   "Translation rules:" ++ nl ++
   "1. PRESERVE placeholders exactly as-is: {value}, {type}, {0}, {1}, etc. — do not translate content inside curly braces" ++ nl ++
   "2. TRANSLATE all descriptive English terms including offer types, conditions, and UI labels" ++ nl ++
   "3. Only keep in English: proper brand names (Apple, Samsung), integration brand names (BackMarket, ShareASale, Tremendous, DataFeed), model numbers (iPhone 15), and code identifiers" ++ nl ++
   "4. Output ONLY a valid JSON object — no markdown, no explanation, no extra text" ++ nl ++
   nl ++
   "Domain glossary (MUST be translated, not kept in English):" ++ nl ++
   "- " ++ dq ++ "In-Store" ++ dq ++ " → physical store location (e.g., Indonesian: " ++ dq ++ "di toko" ++ dq ++ ")" ++ nl ++
   "- " ++ dq ++ "Mail-in" ++ dq ++ " → send by postal mail (e.g., Indonesian: " ++ dq ++ "kirim pos" ++ dq ++ ")  " ++ nl ++
   "- " ++ dq ++ "Bulk Quote" ++ dq ++ " → wholesale/volume pricing (e.g., Indonesian: " ++ dq ++ "penawaran grosir" ++ dq ++ ")" ++ nl ++
   "- " ++ dq ++ "Easy Offer" ++ dq ++ " → simple/quick offer (e.g., Indonesian: " ++ dq ++ "penawaran mudah" ++ dq ++ ")" ++ nl ++
   "- " ++ dq ++ "Trade-in" ++ dq ++ " → exchange old item for value (translate to local equivalent)" ++ nl ++
   "- " ++ dq ++ "Offer" ++ dq ++ " → proposal/bid (translate appropriately)" ++ nl ++
   "- " ++ dq ++ "Markup" ++ dq ++ "/" ++ dq ++ "Mark Up" ++ dq ++ " → increase in price (e.g., Indonesian: " ++ dq ++ "Naikan Harga" ++ dq ++ ")" ++ nl ++
   "- " ++ dq ++ "Mark Down" ++ dq ++ "/" ++ dq ++ "Mark Down" ++ dq ++ " → decrease in price (e.g., Indonesian: " ++ dq ++ "Turunkan Harga" ++ dq ++ ")" ++ nl ++
   nl ++
   "Example of CORRECT vs INCORRECT translation (e.g. Indonesian):" ++ nl ++
   "- WRONG: " ++ dq ++ "In-Store Offer" ++ dq ++ " → " ++ dq ++ "Penawaran In-Store" ++ dq ++ " (kept English term)" ++ nl ++
   "- RIGHT: " ++ dq ++ "In-Store Offer" ++ dq ++ " → " ++ dq ++ "Penawaran di Toko" ++ dq ++ " (fully translated)" ++ nl ++
   nl ++
   "Input format: JSON object where keys are numeric indices and values are strings to translate." ++ nl ++
   "Output format: JSON object with the same numeric keys and fully translated strings as values." ++ nl ++
   "Input:" ++ nl)%string.

Definition LLM_SYSTEM_PROMPT : string :=
  (prompt_head ++ "{:language}" ++ prompt_tail)%string.

Definition LLM_INPUT_PROMPT : string := "{:input}".

Definition generateSystemPrompt (languageName : string) : string :=
  let isXhosa := String.eqb (toLowerCase languageName) "xhosa" in
  replace LLM_SYSTEM_PROMPT "{:language}"
    (if isXhosa then "English" else languageName).

Definition generateUserPrompt (input : string) : string :=
  replace LLM_INPUT_PROMPT "{:input}" input.

(** [array.map((x, index) => f(x, index))] from [index] on. *)
Fixpoint mapi_from {A B : Type} (f : A -> nat -> B) (index : nat) (l : list A) : list B :=
  match l with
  | [] => []
  | x :: rest => f x index :: mapi_from f (S index) rest
  end.

Definition mapi {A B : Type} (f : A -> nat -> B) (l : list A) : list B :=
  mapi_from f 0 l.

Fixpoint join_nl (lines : list string) : string :=
  match lines with
  | [] => EmptyString
  | [l] => l
  | l :: rest => (l ++ nl ++ join_nl rest)%string
  end.

Definition generateTranslationFormattedInput
  (translations : list TranslationKeyValue) : string :=
  join_nl
    (mapi (fun translation index =>
             ("[" ++ String_of_nat index ++ "] " ++ dq ++ value translation ++ dq)%string)
       translations).

(** One call of the chat-completion endpoint, as the client sees it. *)
Record request : Type := mkRequest { content : string; required : list string }.

(** What comes back, up to and including [JSON.parse(content)]. *)
Inductive reply : Type :=
| Rejects (e : error)                 (* the call itself fails *)
| NoContent                           (* content is not a string *)
| Malformed                           (* JSON.parse throws *)
| Falsy                               (* parses to null, false, 0 or '' *)
| Translations (m : list (string * string)). (* a Record<string, string> *)

(** The remote service: its answer to the [n]-th request (from 0). *)
Definition backend : Type := nat -> request -> reply.

(** The requests sent so far. *)
Definition world : Type := list request.

Definition M (A : Type) : Type := world -> outcome A * world.

Definition ret {A : Type} (a : A) : M A := fun w => (Ret a, w).

Definition bindM {A B : Type} (c : M A) (k : A -> M B) : M B :=
  fun w =>
    match c w with
    | (Ret a, w') => k a w'
    | (Throw e, w') => (Throw e, w')
    | (Unmodelled, w') => (Unmodelled, w')
    end.

Section Client.
Variable remote : backend.
(** [this.language.name]. *)
Variable language_name : string.

Definition sendLLMRequest (systemPrompt userPrompt : string) (keys : list string)
  : M (option (list (string * string))) :=
  fun w =>
    let req := mkRequest (systemPrompt ++ nl ++ userPrompt)%string keys in
    let w' := w ++ [req] in
    match remote (length w) req with
    | Rejects e => (Throw e, w')
    | NoContent => (Throw (Error "Unexpected response format from LLM"), w')
    | Malformed => (Throw SyntaxError, w')
    | Falsy => (Ret None, w')
    | Translations m => (Ret (Some m), w')
    end.

(** The request [processTranslations] sends for a batch. *)
Definition request_for (translations : list TranslationKeyValue) : request :=
  mkRequest
    (generateSystemPrompt language_name ++ nl ++
     generateUserPrompt (generateTranslationFormattedInput translations))%string
    (map String_of_nat (seq 0 (length translations))).

(** [None] is [undefined]. *)
Definition processTranslations (translations : list TranslationKeyValue)
  : M (option (list TranslationKeyValue)) :=
  let formattedInput := generateTranslationFormattedInput translations in
  let systemPrompt := generateSystemPrompt language_name in
  let userPrompt := generateUserPrompt formattedInput in
  bindM (sendLLMRequest systemPrompt userPrompt
           (map String_of_nat (seq 0 (length translations))))
    (fun result =>
       match result with
       | None => ret None
       | Some result =>
           ret (Some (mapi (fun t i =>
                              mkKV (key t)
                                (match assoc (String_of_nat i) result with
                                 | Some s => s
                                 | None => value t
                                 end))
                        translations))
       end).

(** [Math.ceil(length / batchSize)] for a positive [batchSize]. *)
Definition ceil_div (length batchSize : nat) : nat :=
  if length mod batchSize =? 0 then length / batchSize
  else S (length / batchSize).

(** The batches of [translate]: [Array.from({ length }).map(...)].
    With [batchSize] 0 the length is [Infinity] (a RangeError), or
    [NaN] when there is nothing to translate (no batch). *)
Definition batches {T : Type} (translations : list T) (batchSize : nat)
  : outcome (list (list T)) :=
  match batchSize with
  | 0 => match translations with [] => Ret [] | _ => Throw RangeError end
  | _ =>
      Ret (map (fun i => slice translations (i * batchSize) ((i + 1) * batchSize))
             (seq 0 (ceil_div (length translations) batchSize)))
  end.

(** The [for (const batch of batches)] loop. *)
Fixpoint translate_loop (batches : list (list TranslationKeyValue))
  (result : list TranslationKeyValue) : M (list TranslationKeyValue) :=
  match batches with
  | [] => ret result
  | batch :: rest =>
      bindM (processTranslations batch)
        (fun batchResult =>
           translate_loop rest
             (match batchResult with
              | Some r => result ++ r
              | None => result
              end))
  end.

(** [options = { batchSize: 50 }] by default. *)
Definition default_batchSize : nat := 50.

Definition translate (translations : list TranslationKeyValue) (batchSize : nat)
  : M (list TranslationKeyValue) :=
  fun w =>
    match batches translations batchSize with
    | Ret bs => translate_loop bs [] w
    | Throw e => (Throw e, w)
    | Unmodelled => (Unmodelled, w)
    end.
End Client.

End LLMTranslation.

(** ** Examples *)

(** An operation that rejects twice and then fulfils; one that always
    rejects.  The world counts the calls. *)
Definition fails_twice (w : nat) : SafeAsync.settled string * nat :=
  match w with
  | 0 | 1 => (SafeAsync.Rejected (Error "timeout"), S w)
  | _ => (SafeAsync.Fulfilled "done", S w)
  end.

Definition always_fails (w : nat) : SafeAsync.settled string * nat :=
  (SafeAsync.Rejected (Error "timeout"), S w).

(** A backend whose first call fails and whose later calls answer. *)
Definition first_call_fails : LLMTranslation.backend :=
  fun n _ =>
    match n with
    | 0 => LLMTranslation.Rejects (Error "503")
    | _ => LLMTranslation.Translations [("0", "Monde")]
    end.

Definition two_entries : list TranslationKeyValue :=
  [mkKV "a" "Hello"; mkKV "b" "World"].

(** ** Trees, and the words of the specification *)

(** A TranslationTree (specification, section 3): a string leaf or a
    mapping from keys to trees. *)
Fixpoint is_tree (j : json) : bool :=
  match j with
  | JStr _ => true
  | JObj props => forallb (fun kv => is_tree (snd kv)) props
  | _ => false
  end.

(** No null anywhere in a value. *)
Fixpoint null_free (j : json) : bool :=
  match j with
  | JNull => false
  | JArr items => forallb null_free items
  | JObj props => forallb (fun kv => null_free (snd kv)) props
  | _ => true
  end.

(** A translation file whose values are all trees. *)
Definition is_translation (t : record) : bool := is_tree (JObj t).

(** The string leaf directly under a top-level key. *)
Definition leaf (tree : record) (k : string) : option string :=
  match assoc k tree with
  | Some (JStr s) => Some s
  | _ => None
  end.

(** The [get] of the specification (section 4.1): descend through nested
    mapping nodes along the path, return the leaf if it is found and is a
    string. *)
Fixpoint resolve (tree : record) (path : list string) : option string :=
  match path with
  | [] => None
  | [k] => leaf tree k
  | k :: rest =>
      match assoc k tree with
      | Some (JObj child) => resolve child rest
      | _ => None
      end
  end.

(** Absence is reported as the empty string. *)
Definition or_absent (found : option string) : string :=
  match found with
  | Some s => s
  | None => EmptyString
  end.

(** The loop of [flattenJson] over the entries of one object, under a
    name of its own. *)
Definition flattenEntries (parentKeys : list string)
  : list (string * json) -> Map -> outcome Map :=
  fix loop (entries : list (string * json)) (result : Map) {struct entries}
    : outcome Map :=
    match entries with
    | [] => Ret result
    | (key, value) :: entries' =>
        match value with
        | JObj _ | JNull =>
            result' <- TranslationJson.flattenJson value (parentKeys ++ [key]) result ;;
            loop entries' result'
        | JStr s =>
            loop entries' (Map_set (TranslationJson.fullKey parentKeys key) s result)
        | _ => loop entries' result
        end
    end.

(** A flat entry as a [TranslationKeyValue]. *)
Definition entry (e : string * string) : TranslationKeyValue :=
  mkKV (fst e) (snd e).

(** The two conditions of the specification's diff (section 4.2): the key
    is absent from the other flattened form or its value differs there;
    the key is absent from the base's flattened form. *)
Definition absent_or_differs (otherMap : Map) (e : string * string) : bool :=
  match assoc (fst e) otherMap with
  | None => true
  | Some otherValue => negb (String.eqb otherValue (snd e))
  end.

Definition absent_from (selfMap : Map) (e : string * string) : bool :=
  negb (has (fst e) selfMap).

(** The [i]-th chunk of size [n]. *)
Definition chunk {T : Type} (items : list T) (n i : nat) : list T :=
  slice items (i * n) ((i + 1) * n).

(** [json[key] = value] for one flat entry. *)
Definition set_entry (t : record) (e : string * string) : record :=
  obj_set (fst e) (JStr (snd e)) t.

(** Every flat entry applied in turn with [setValue], from the empty
    tree [{}]. *)
Definition reapply (entries : Map) : outcome record :=
  fold_left
    (fun (acc : outcome record) (e : string * string) =>
       t <- acc ;; TranslationJson.setValue t (fst e) (snd e))
    entries (Ret []).

(** Induction on JSON values, with the hypothesis on every element. *)
Definition json_ind (P : json -> Prop)
  (Hnull : P JNull) (Hbool : forall b, P (JBool b)) (Hnum : forall n, P (JNum n))
  (Hstr : forall s, P (JStr s))
  (Harr : forall items, Forall P items -> P (JArr items))
  (Hobj : forall props, Forall (fun kv => P (snd kv)) props -> P (JObj props))
  : forall j, P j :=
  fix go (j : json) : P j :=
    match j with
    | JNull => Hnull
    | JBool b => Hbool b
    | JNum n => Hnum n
    | JStr s => Hstr s
    | JArr items =>
        Harr items
          ((fix all (l : list json) : Forall P l :=
              match l with
              | [] => Forall_nil P
              | x :: r => Forall_cons x (go x) (all r)
              end) items)
    | JObj props =>
        Hobj props
          ((fix all (l : list (string * json)) : Forall (fun kv => P (snd kv)) l :=
              match l with
              | [] => Forall_nil _
              | kv :: r => Forall_cons kv (go (snd kv)) (all r)
              end) props)
    end.

(** The example of the specification (section 8). *)
Definition ex_base : record :=
  [("a", JStr "Hello"); ("b", JObj [("c", JStr "World")])].

Definition ex_patched : record :=
  [("a", JStr "Hi"); ("b", JObj [("c", JStr "World")]); ("d", JStr "New")].

(** ** The rest of the earlier version (src/unnamed/part_000) *)

Module Earlier.

(** [SafeAsync.run] of the earlier version: it resolves to the value
    or to null ([None]). *)
Section Run.
Context {W T : Type}.
Variable fn : W -> SafeAsync.settled T * W.
Variable retries : nat.

Fixpoint loop (n i : nat) (this : SafeAsync.instance) (w : W)
  : SafeAsync.settled (option T) * SafeAsync.instance * W :=
  match n with
  | 0 => (SafeAsync.Fulfilled None, this, w)
  | S n' =>
      match fn w with
      | (SafeAsync.Fulfilled v, w') => (SafeAsync.Fulfilled (Some v), this, w')
      | (SafeAsync.Rejected e, w') =>
          let this1 :=
            SafeAsync.mkInstance (SafeAsync.this_errors this ++ [e])
              (SafeAsync.delays this) in
          if i =? retries - 1 then (SafeAsync.Fulfilled None, this1, w')
          else
            let this2 :=
              SafeAsync.mkInstance (SafeAsync.this_errors this1)
                (SafeAsync.delays this1 ++ [SafeAsync.backoff i]) in
            loop n' (S i) this2 w'
      end
  end.

Definition run (this : SafeAsync.instance) (w : W)
  : SafeAsync.settled (option T) * SafeAsync.instance * W :=
  loop retries 0 this w.
End Run.

(** [TranslationJsonFile.resolve(obj, keys)]: the node itself, string or
    not; [None] is [undefined]. *)
Fixpoint resolve (obj : record) (keys : list string) : outcome (option json) :=
  match keys with
  | [] => Ret None
  | [k] => Ret (assoc k obj)
  | firstKey :: restKeys =>
      match assoc firstKey obj with
      | Some (JObj child) => resolve child restKeys
      | Some (JArr items) => resolve (array_props items) restKeys
      | Some JNull => Throw TypeError
      | _ => Ret None
      end
  end.

Definition getValue (this_value : record) (key : string) : outcome (option json) :=
  let keys := split_dot key in
  resolve this_value keys.

(** [TranslationJsonFile.flattenObject(obj, keys, result)]: [result] is a
    plain object, written with [result[newKeys.join('.')] = value]. *)
Fixpoint flattenObject (obj : json) (keys : list string) (result : record)
  {struct obj} : outcome record :=
  match obj with
  | JObj entries =>
      (fix loop (entries : list (string * json)) (result : record) {struct entries}
         : outcome record :=
         match entries with
         | [] => Ret result
         | (key, value) :: entries' =>
             let newKeys := keys ++ [key] in
             match value with
             | JObj _ | JNull =>
                 result' <- flattenObject value newKeys result ;;
                 loop entries' result'
             | JStr s => loop entries' (obj_set (join_dot newKeys) (JStr s) result)
             | _ => loop entries' result
             end
         end) entries result
  | JNull => Throw TypeError
  | _ => Unmodelled
  end.

Definition flatten (this_value : record) : outcome record :=
  flattenObject (JObj this_value) [] [].

(** The loop of [flattenObject] over the entries of one object, under a
    name of its own. *)
Definition flattenObjectEntries (keys : list string)
  : list (string * json) -> record -> outcome record :=
  fix loop (entries : list (string * json)) (result : record) {struct entries}
    : outcome record :=
    match entries with
    | [] => Ret result
    | (key, value) :: entries' =>
        let newKeys := keys ++ [key] in
        match value with
        | JObj _ | JNull =>
            result' <- flattenObject value newKeys result ;;
            loop entries' result'
        | JStr s => loop entries' (obj_set (join_dot newKeys) (JStr s) result)
        | _ => loop entries' result
        end
    end.

(** The [Language] class: [entries] is [Language.entries].
    [getLanguageNameByCode(code)]. *)
Definition getLanguageNameByCode (code : string) : option string :=
  assoc code Language.entries.

(** [getLanguageCodeByName(name)]: the first code with exactly this name. *)
Definition getLanguageCodeByName (name : string) : option string :=
  match find (fun e => String.eqb (snd e) name) Language.entries with
  | Some e => Some (fst e)
  | None => None
  end.

(** The fields a constructed [Language] ends with ([None] is
    [undefined]). *)
Record LanguageFields : Type :=
  mkLanguage { language_code : option string; language_name : option string }.

Definition truthy (s : option string) : bool :=
  match s with
  | Some (String _ _) => true
  | _ => false
  end.

(** [new Language(input)]. *)
Definition newLanguage (input : string) : outcome LanguageFields :=
  let languageCode := getLanguageNameByCode input in
  let languageName := getLanguageCodeByName input in
  if negb (truthy languageCode) && negb (truthy languageName)
  then Throw (Error ("Invalid language: " ++ input))
  else Ret (mkLanguage languageCode languageCode).

End Earlier.

(** ** The orchestrator (src/tools/translation.tools.ts) *)

Module Tools.

Section Loading.
Context {F J : Type}.

(** [new TranslationJson(file).parse()]: how the promise settles. *)
Variable parse : F -> SafeAsync.settled J.

(** The [for (const file of files)] loop of
    [getTranslationJsonFromFiles]: the settled windows and the queue. *)
Fixpoint load_loop (files : list F)
  (result : list (list (SafeAsync.settled J))) (queue : list (SafeAsync.settled J))
  : list (list (SafeAsync.settled J)) * list (SafeAsync.settled J) :=
  match files with
  | [] => (result, queue)
  | file :: rest =>
      let isMaxConcurrency := (length queue mod 10 =? 0) && (0 <? length queue) in
      if isMaxConcurrency
      then load_loop rest (result ++ [queue]) ([] ++ [parse file])
      else load_loop rest result (queue ++ [parse file])
  end.

(** The windows handed to [Promise.allSettled], in order. *)
Definition windows (files : list F) : list (list (SafeAsync.settled J)) :=
  let (result, queue) := load_loop files [] [] in
  let hasQueueUnprocessed := 0 <? length queue in
  if hasQueueUnprocessed then result ++ [queue] else result.

(** [r.filter((r) => r.status === 'fulfilled').map((r) => r.value)]. *)
Definition fulfilled (r : list (SafeAsync.settled J)) : list J :=
  flat_map (fun s => match s with
                     | SafeAsync.Fulfilled v => [v]
                     | SafeAsync.Rejected _ => []
                     end) r.

Definition getTranslationJsonFromFiles (files : list F) : list J :=
  flat_map fulfilled (windows files).
End Loading.

(** The loop of the per-file task of [translatePatch]:
    [for (const translated of translates) translation.setValue(...)]. *)
Definition setValues (this_json : record) (translates : list TranslationKeyValue)
  : outcome record :=
  fold_left
    (fun (acc : outcome record) (translated : TranslationKeyValue) =>
       t <- acc ;; TranslationJson.setValue t (key translated) (value translated))
    translates (Ret this_json).

(** The per-file task: translate the diff, set every translated entry;
    the tree returned is the one [write] then saves. *)
Definition patchTask (remote : LLMTranslation.backend) (language_name : string)
  (diff : list TranslationKeyValue) (this_json : record)
  : LLMTranslation.M record :=
  fun w =>
    match LLMTranslation.translate remote language_name diff
            LLMTranslation.default_batchSize w with
    | (Ret translates, w') => (setValues this_json translates, w')
    | (Throw e, w') => (Throw e, w')
    | (Unmodelled, w') => (Unmodelled, w')
    end.

End Tools.

(** ** Keys and paths *)

(** Whether a list of strings has no repetition. *)
Fixpoint distinct (ks : list string) : bool :=
  match ks with
  | [] => true
  | k :: rest => negb (existsb (String.eqb k) rest) && distinct rest
  end.

(** A value whose objects have distinct keys, none with a ['.']. *)
Fixpoint well_keyed (j : json) : bool :=
  match j with
  | JObj props =>
      distinct (map fst props) &&
      forallb (fun kv => negb (has_dot (fst kv)) && well_keyed (snd kv)) props
  | _ => true
  end.

(** [strip parent path]: what is left of [path] after [parent], when
    [path] starts with it. *)
Fixpoint strip (parent path : list string) : option (list string) :=
  match parent with
  | [] => Some path
  | p :: parent' =>
      match path with
      | s :: path' => if String.eqb p s then strip parent' path' else None
      | [] => None
      end
  end.

(** Two dotted keys neither of which is the other, or runs through the
    other as a path. *)
Definition independent (k1 k2 : string) : bool :=
  match strip (split_dot k1) (split_dot k2), strip (split_dot k2) (split_dot k1) with
  | None, None => true
  | _, _ => false
  end.

Fixpoint pairwise_independent (ks : list string) : bool :=
  match ks with
  | [] => true
  | k :: rest => forallb (independent k) rest && pairwise_independent rest
  end.

(** A key that [getValue] finds bound to a string (and not merely
    answers with the empty value of absence). *)
Definition firmly_bound (t : record) (k v : string) : Prop :=
  if TranslationJson.isFlat t then leaf t k = Some v
  else TranslationJson.getJsonValue t (split_dot k) = Ret (Some v).

(** What the flattened form binds a key to, for entries flattened under
    the parent keys [parentKeys] into [result]: the string leaf that the
    rest of the key's path resolves to, or what [result] held. *)
Definition flattened (parentKeys : list string) (entries : record) (result : Map)
  (k : string) : option string :=
  match strip parentKeys (split_dot k) with
  | Some q =>
      match resolve entries q with
      | Some v => Some v
      | None => assoc k result
      end
  | None => assoc k result
  end.

(** ** Translation files (src/utilities/translation.utils.ts,
    src/tools/translation.tools.ts) *)

Module Files.

(** [new TranslationFile(path, name)]. *)
Record TranslationFile : Type := mkFile { path : string; name : string }.

(** [s.endsWith(suffix)]. *)
Definition endsWith (s suffix : string) : bool :=
  (String.length suffix <=? String.length s) &&
  String.eqb
    (String.substring (String.length s - String.length suffix) (String.length suffix) s)
    suffix.

(** [getTranslationFilesFromPath(path)], over the names that
    [fs.readdirSync(path)] lists. *)
Definition getTranslationFilesFromPath (readdirSync : list string) (path : string)
  : list TranslationFile :=
  map (fun file => let filePath := (path ++ "/" ++ file)%string in mkFile filePath file)
    (filter (fun file => endsWith file ".json") readdirSync).

(** [s.split('/')]. *)
Fixpoint split_slash (s : string) : list string :=
  match s with
  | EmptyString => [EmptyString]
  | String c rest =>
      if Ascii.eqb c "/"%char then EmptyString :: split_slash rest
      else match split_slash rest with
           | seg :: segs => String c seg :: segs
           | [] => [String c EmptyString]
           end
  end.

(** [array.pop()]: the last element, [None] for [undefined]. *)
Fixpoint pop (l : list string) : option string :=
  match l with
  | [] => None
  | [x] => Some x
  | _ :: rest => pop rest
  end.

(** [getLanguageCodeByTranslationJson(translation)], from the path (or
    the url) of the source of [translation]. *)
Definition getLanguageCodeByTranslationJson (filePath : string)
  : option (string * string) :=
  match pop (split_slash filePath) with
  | Some (String c rest) =>
      Language.getLanguageByCode (replace (String c rest) ".json" EmptyString)
  | _ => None
  end.

(** Whether a name has no ['/']. *)
Fixpoint no_slash (s : string) : bool :=
  match s with
  | EmptyString => true
  | String c rest => negb (Ascii.eqb c "/"%char) && no_slash rest
  end.

End Files.

(** ** Replies of the translation service *)

(** The error [sendLLMRequest] throws on a reply, if it throws. *)
Definition failure (r : LLMTranslation.reply) : option error :=
  match r with
  | LLMTranslation.Rejects e => Some e
  | LLMTranslation.NoContent => Some (Error "Unexpected response format from LLM")
  | LLMTranslation.Malformed => Some SyntaxError
  | LLMTranslation.Falsy => None
  | LLMTranslation.Translations _ => None
  end.

(** The string a node is, if it is one. *)
Definition string_node (node : option json) : option string :=
  match node with
  | Some (JStr s) => Some s
  | _ => None
  end.

(** The plain object of the earlier [flatten] and the Map of the current
    one hold the same bindings. *)
Definition same_bindings (plain : record) (m : Map) : Prop :=
  forall k, assoc k plain = option_map JStr (assoc k m).

(** * Properties *)

(** ** Batching *)

Lemma firstn_plus {T : Type} (a b : nat) (l : list T) :
  firstn (a + b) l = firstn a l ++ firstn b (skipn a l).
Proof.
  revert l; induction a as [|a IH]; intros l; simpl.
  - reflexivity.
  - destruct l as [|x l]; simpl.
    + now rewrite firstn_nil.
    + now rewrite IH.
Qed.

Lemma chunk_eq {T : Type} (items : list T) n i :
  chunk items n i = firstn n (skipn (i * n) items).
Proof. unfold chunk, slice. f_equal. lia. Qed.

Lemma concat_chunks {T : Type} (items : list T) n c :
  concat (map (chunk items n) (seq 0 c)) = firstn (c * n) items.
Proof.
  induction c as [|c IH].
  - reflexivity.
  - rewrite seq_S, map_app, concat_app, IH. simpl.
    rewrite app_nil_r, chunk_eq.
    replace (n + c * n) with (c * n + n) by lia.
    now rewrite firstn_plus.
Qed.

Lemma ceil_div_spec L n :
  0 < n -> LLMTranslation.ceil_div L n = (L + n - 1) / n.
Proof.
  intros Hn. unfold LLMTranslation.ceil_div.
  pose proof (Nat.div_mod_eq L n) as HL.
  pose proof (Nat.mod_upper_bound L n ltac:(lia)) as Hm.
  destruct (Nat.eqb_spec (L mod n) 0) as [E|E].
  - apply Nat.div_unique with (r := n - 1); [lia|]. rewrite E in HL. lia.
  - apply Nat.div_unique with (r := L mod n - 1); [lia|].
    rewrite Nat.mul_succ_r. lia.
Qed.

Lemma ceil_div_bounds L n :
  0 < n ->
  L <= LLMTranslation.ceil_div L n * n /\
  (forall i, i < LLMTranslation.ceil_div L n -> i * n < L).
Proof.
  intros Hn. unfold LLMTranslation.ceil_div.
  pose proof (Nat.div_mod_eq L n) as HL.
  pose proof (Nat.mod_upper_bound L n ltac:(lia)) as Hm.
  destruct (Nat.eqb_spec (L mod n) 0) as [E|E];
    (split; [nia | intros i Hi; nia]).
Qed.

Lemma create_loop_chunks {T : Type} (items : list T) n :
  0 < n ->
  forall fuel k batch,
    LLMTranslation.ceil_div (length items) n - k <= fuel ->
    k <= LLMTranslation.ceil_div (length items) n ->
    Batch.create_loop fuel items n (k * n) batch =
    Some (batch ++ map (chunk items n)
                     (seq k (LLMTranslation.ceil_div (length items) n - k))).
Proof.
  intros Hn.
  destruct (ceil_div_bounds (length items) n Hn) as [Hup Hlow].
  set (c := LLMTranslation.ceil_div (length items) n) in *.
  induction fuel as [|fuel IH]; intros k batch Hfuel Hk.
  - assert (k = c) by lia. subst k. simpl.
    destruct (Nat.ltb_spec (c * n) (length items)); [lia|].
    now rewrite Nat.sub_diag, app_nil_r.
  - simpl. destruct (Nat.ltb_spec (k * n) (length items)) as [Hlt|Hge].
    + assert (k < c) by nia.
      replace (k * n + n) with (S k * n) by lia.
      rewrite IH by lia.
      f_equal. rewrite <- app_assoc. f_equal.
      replace (c - k) with (S (c - S k)) by lia. simpl.
      f_equal. unfold chunk. f_equal; lia.
    + assert (k = c).
      { destruct (Nat.eq_dec k c) as [|Hne]; [assumption|].
        specialize (Hlow k ltac:(lia)). lia. }
      subst k. now rewrite Nat.sub_diag, app_nil_r.
Qed.

(** C8.  For a positive chunk size, both batching steps (the one inside
    [LLMTranslation.translate] and [Batch.create], given fuel for its
    loop) return the same list of chunks: ceil(L/n) of them, the i-th
    being the n items from position i*n on, every chunk but the last of
    exactly n items, none empty, and their concatenation is the input. *)
Theorem batching_chunks {T : Type} (items : list T) (n : nat) :
  0 < n ->
  exists bs,
    LLMTranslation.batches items n = Ret bs /\
    (forall fuel, length items <= fuel -> Batch.create fuel items n = Some bs) /\
    length bs = (length items + n - 1) / n /\
    (forall i, i < length bs -> nth i bs [] = firstn n (skipn (i * n) items)) /\
    (forall i, S i < length bs -> length (nth i bs []) = n) /\
    (forall b, In b bs -> 0 < length b <= n) /\
    concat bs = items.
Proof.
  intros Hn.
  destruct (ceil_div_bounds (length items) n Hn) as [Hup Hlow].
  pose proof (ceil_div_spec (length items) n Hn) as Hc.
  set (c := LLMTranslation.ceil_div (length items) n) in *.
  exists (map (chunk items n) (seq 0 c)).
  assert (Hlen : length (map (chunk items n) (seq 0 c)) = c)
    by now rewrite length_map, length_seq.
  assert (Hnth : forall i, i < c ->
            nth i (map (chunk items n) (seq 0 c)) [] = chunk items n i).
  { intros i Hi.
    rewrite nth_indep with (d' := chunk items n 0)
      by now rewrite length_map, length_seq.
    rewrite (map_nth (chunk items n)), seq_nth by assumption. reflexivity. }
  split; [|split; [|split; [|split; [|split; [|split]]]]].
  - unfold LLMTranslation.batches. destruct n as [|n]; [lia|]. reflexivity.
  - intros fuel Hfuel. unfold Batch.create.
    assert (c <= length items).
    { destruct c as [|c']; [lia|]. specialize (Hlow c' ltac:(lia)). nia. }
    pose proof (create_loop_chunks items n Hn fuel 0 []) as H0.
    fold c in H0. rewrite Nat.sub_0_r in H0. simpl in H0. apply H0; lia.
  - now rewrite Hlen, <- Hc.
  - intros i Hi. rewrite Hlen in Hi. rewrite Hnth by assumption. apply chunk_eq.
  - intros i Hi. rewrite Hlen in Hi. rewrite Hnth by lia.
    rewrite chunk_eq, length_firstn, length_skipn.
    specialize (Hlow (S i) Hi). lia.
  - intros b Hb. apply in_map_iff in Hb. destruct Hb as (i & <- & Hi).
    apply in_seq in Hi.
    rewrite chunk_eq, length_firstn, length_skipn.
    specialize (Hlow i ltac:(lia)). lia.
  - rewrite concat_chunks. apply firstn_all2. lia.
Qed.

Lemma batching_chunks_witness :
  0 < 2 /\
  exists bs,
    LLMTranslation.batches [1; 2; 3; 4; 5] 2 = Ret bs /\
    (forall fuel, length [1; 2; 3; 4; 5] <= fuel ->
                  Batch.create fuel [1; 2; 3; 4; 5] 2 = Some bs) /\
    length bs = (length [1; 2; 3; 4; 5] + 2 - 1) / 2 /\
    (forall i, i < length bs ->
               nth i bs [] = firstn 2 (skipn (i * 2) [1; 2; 3; 4; 5])) /\
    (forall i, S i < length bs -> length (nth i bs []) = 2) /\
    (forall b, In b bs -> 0 < length b <= 2) /\
    concat bs = [1; 2; 3; 4; 5].
Proof. split; [lia | apply (batching_chunks [1; 2; 3; 4; 5] 2); lia]. Defined.

(** ** The retry wrapper *)

Section SafeAsyncFacts.
Import SafeAsync.
Context {W T : Type}.
Variable fn : W -> settled T * W.
Variable retries : nat.

Lemma loop_fulfils n : forall i this w,
  exists r this' w', loop fn retries n i this w = (Fulfilled r, this', w').
Proof.
  induction n as [|n IH]; intros i this w; simpl.
  - eauto.
  - destruct (fn w) as [[v|e] w1]; [eauto|].
    destruct (i =? retries - 1); eauto.
Qed.

Lemma rejections_length k : forall w es w1,
  rejections fn k w = Some (es, w1) -> length es = k.
Proof.
  induction k as [|k IH]; simpl; intros w es w1 H.
  - now injection H as <- <-.
  - destruct (fn w) as [[v0|e] w0]; [discriminate|].
    destruct (rejections fn k w0) as [[es' w']|] eqn:E; [|discriminate].
    injection H as <- <-. simpl. f_equal. eapply IH, E.
Qed.

Lemma seq_backoff i k :
  [backoff i] ++ map backoff (seq (S i) k) = map backoff (seq i (S k)).
Proof. reflexivity. Qed.

Lemma loop_rejections k : forall n i this w es w1,
  rejections fn k w = Some (es, w1) ->
  i + n = retries ->
  k <= n ->
  (k < n -> forall v w2,
      fn w1 = (Fulfilled v, w2) ->
      loop fn retries n i this w =
      (Fulfilled (mkReport (Some v) []),
       mkInstance (this_errors this ++ es)
         (delays this ++ map backoff (seq i k)), w2)) /\
  (k = n ->
   loop fn retries n i this w =
   (Fulfilled (mkReport None (this_errors this ++ es)),
    mkInstance (this_errors this ++ es)
      (delays this ++ map backoff (seq i (k - 1))), w1)).
Proof.
  induction k as [|k IH]; intros n i [errs ds] w es w1 Hrej Hi Hk.
  - simpl in Hrej. injection Hrej as <- <-. simpl. rewrite !app_nil_r.
    split.
    + intros Hlt v w2 Hfn. destruct n as [|n]; [lia|]. simpl. now rewrite Hfn.
    + intros <-. reflexivity.
  - simpl in Hrej.
    destruct (fn w) as [[v0|e] w0] eqn:Hfn; [discriminate|].
    destruct (rejections fn k w0) as [[es' w']|] eqn:Hrest; [|discriminate].
    injection Hrej as <- <-.
    destruct n as [|n]; [lia|].
    simpl loop. rewrite Hfn. cbn [this_errors delays].
    destruct (Nat.eqb_spec i (retries - 1)) as [Hlast|Hmore].
    + assert (n = 0) by lia. subst n. assert (k = 0) by lia. subst k.
      simpl in Hrest. injection Hrest as <- <-.
      split; [lia|]. intros _. simpl. now rewrite app_nil_r.
    + assert (Hn : 0 < n) by lia.
      destruct (IH n (S i) (mkInstance (errs ++ [e]) (ds ++ [backoff i]))
                  w0 es' w' Hrest ltac:(lia) ltac:(lia)) as [Hok Hko].
      cbn [this_errors delays] in Hok, Hko.
      rewrite <- !app_assoc in Hok, Hko. rewrite seq_backoff in Hok.
      split.
      * intros Hlt v w2 Hv. apply Hok; [lia | assumption].
      * intros Heq. rewrite Hko by lia.
        replace (S k - 1) with (S (k - 1)) by lia.
        rewrite <- seq_backoff. reflexivity.
Qed.
End SafeAsyncFacts.

(** C4, amended.  [SafeAsync.run] always resolves, it never rejects.
    When the operation rejects on its first [k] calls and fulfils with
    [v] on the next one, [k] below the budget, [run] resolves to the
    value [v] with an empty error list, and the instance has recorded
    exactly these [k] errors.  When the operation rejects on all
    [retries] calls, [run] resolves to a null result together with
    exactly these [retries] errors.  The back-off waits are 2^i seconds
    after the failed attempt [i], the last excepted. *)
Theorem SafeAsync_run_outcomes {W T : Type}
  (fn : W -> SafeAsync.settled T * W) (retries : nat) :
  (forall this w, exists r this' w',
      SafeAsync.run fn retries this w = (SafeAsync.Fulfilled r, this', w')) /\
  (forall k w es w1 v w2,
      SafeAsync.rejections fn k w = Some (es, w1) ->
      fn w1 = (SafeAsync.Fulfilled v, w2) ->
      k + 1 <= retries ->
      exists r this',
        SafeAsync.run fn retries SafeAsync.fresh w = (SafeAsync.Fulfilled r, this', w2) /\
        SafeAsync.result r = Some v /\
        SafeAsync.errors r = [] /\
        SafeAsync.this_errors this' = es /\
        length (SafeAsync.this_errors this') = k /\
        SafeAsync.delays this' = map SafeAsync.backoff (seq 0 k)) /\
  (forall w es w1,
      SafeAsync.rejections fn retries w = Some (es, w1) ->
      exists r this',
        SafeAsync.run fn retries SafeAsync.fresh w = (SafeAsync.Fulfilled r, this', w1) /\
        SafeAsync.result r = None /\
        SafeAsync.errors r = es /\
        length (SafeAsync.errors r) = retries /\
        SafeAsync.this_errors this' = es /\
        SafeAsync.delays this' = map SafeAsync.backoff (seq 0 (retries - 1))).
Proof.
  split; [|split].
  - intros this w. apply loop_fulfils.
  - intros k w es w1 v w2 Hrej Hv Hk.
    destruct (loop_rejections fn retries k retries 0 SafeAsync.fresh w es w1
                Hrej eq_refl ltac:(lia)) as [Hok _].
    unfold SafeAsync.run. rewrite (Hok ltac:(lia) v w2 Hv).
    do 2 eexists. split; [reflexivity|]. simpl.
    split; [reflexivity|]. split; [reflexivity|]. split; [reflexivity|].
    split; [exact (rejections_length fn _ _ _ _ Hrej) | reflexivity].
  - intros w es w1 Hrej.
    destruct (loop_rejections fn retries retries retries 0 SafeAsync.fresh w es w1
                Hrej eq_refl ltac:(lia)) as [_ Hko].
    unfold SafeAsync.run. rewrite (Hko eq_refl).
    do 2 eexists. split; [reflexivity|]. simpl.
    split; [reflexivity|]. split; [reflexivity|].
    split; [exact (rejections_length fn _ _ _ _ Hrej) | split; reflexivity].
Qed.

(** ** Property lists *)

Section AssocFacts.
Context {A : Type}.
Implicit Types (m : list (string * A)) (k : string) (v : A).

Lemma has_true_iff k m : has k m = true <-> In k (map fst m).
Proof.
  unfold has. induction m as [|[k' v'] m IH]; simpl.
  - split; [discriminate | tauto].
  - destruct (String.eqb_spec k k') as [->|Hne].
    + split; auto.
    + rewrite IH. split; [auto | intros [E|H]; [congruence | assumption]].
Qed.

Lemma has_false_iff k m : has k m = false <-> ~ In k (map fst m).
Proof.
  rewrite <- has_true_iff. destruct (has k m); split; congruence.
Qed.

Lemma has_false_assoc k m : has k m = false -> assoc k m = None.
Proof. unfold has. now destruct (assoc k m). Qed.

Lemma keys_update k v m : map fst (update k v m) = map fst m.
Proof.
  induction m as [|[k' v'] m IH]; simpl; [reflexivity|].
  destruct (String.eqb k k'); simpl; [reflexivity | now rewrite IH].
Qed.

Lemma assoc_update_eq k v m :
  has k m = true -> assoc k (update k v m) = Some v.
Proof.
  unfold has. induction m as [|[k' v'] m IH]; simpl; [discriminate|].
  destruct (String.eqb_spec k k') as [->|Hne]; simpl.
  - now rewrite String.eqb_refl.
  - destruct (String.eqb_spec k k'); [contradiction | exact IH].
Qed.

Lemma assoc_update_neq k k' v m :
  k' <> k -> assoc k' (update k v m) = assoc k' m.
Proof.
  intros Hne. induction m as [|[k0 v0] m IH]; simpl; [reflexivity|].
  destruct (String.eqb_spec k k0) as [->|Hk]; simpl.
  - destruct (String.eqb_spec k' k0); [contradiction | reflexivity].
  - now rewrite IH.
Qed.

Lemma assoc_app k m1 m2 :
  assoc k (m1 ++ m2) =
  match assoc k m1 with Some v => Some v | None => assoc k m2 end.
Proof.
  induction m1 as [|[k' v'] m1 IH]; simpl; [reflexivity|].
  now destruct (String.eqb k k').
Qed.

Lemma assoc_In k v m : assoc k m = Some v -> In (k, v) m.
Proof.
  induction m as [|[k' v'] m IH]; simpl; [discriminate|].
  destruct (String.eqb_spec k k') as [->|Hne].
  - intros [= ->]. now left.
  - intros H. right. auto.
Qed.

Lemma In_assoc k v m : NoDup (map fst m) -> In (k, v) m -> assoc k m = Some v.
Proof.
  induction m as [|[k' v'] m IH]; simpl; [tauto|].
  intros Hnd [[= -> ->]|Hin].
  - now rewrite String.eqb_refl.
  - inversion Hnd as [|? ? Hnotin Hnd']; subst.
    destruct (String.eqb_spec k k') as [->|Hne].
    + exfalso. apply Hnotin. apply (in_map fst) in Hin. exact Hin.
    + auto.
Qed.
End AssocFacts.

Lemma keys_insert_index n k v m k' :
  In k' (map fst (insert_index n k v m)) <-> k' = k \/ In k' (map fst m).
Proof.
  induction m as [|[k0 v0] m IH]; simpl.
  - intuition.
  - destruct (array_index k0) as [n0|]; [destruct (n0 <? n)%N|]; simpl;
      rewrite ?IH; intuition.
Qed.

Lemma NoDup_insert_index n k v m :
  ~ In k (map fst m) -> NoDup (map fst m) -> NoDup (map fst (insert_index n k v m)).
Proof.
  induction m as [|[k0 v0] m IH]; simpl; intros Hk Hnd.
  - constructor; [tauto | constructor].
  - assert (Hcons : NoDup (k :: k0 :: map fst m)) by (constructor; assumption).
    destruct (array_index k0) as [n0|]; [destruct (n0 <? n)%N|]; simpl; auto.
    inversion Hnd as [|? ? Hnotin Hnd']; subst.
    constructor.
    + rewrite keys_insert_index. intuition.
    + apply IH; [intuition | assumption].
Qed.

Lemma assoc_insert_index_eq n k v m :
  has k m = false -> assoc k (insert_index n k v m) = Some v.
Proof.
  unfold has. induction m as [|[k0 v0] m IH]; simpl.
  - now rewrite String.eqb_refl.
  - destruct (String.eqb_spec k k0) as [->|Hne]; [discriminate|]. intros H.
    destruct (array_index k0) as [n0|]; [destruct (n0 <? n)%N|]; simpl;
      rewrite ?String.eqb_refl; try reflexivity.
    destruct (String.eqb_spec k k0); [contradiction | auto].
Qed.

Lemma assoc_insert_index_neq n k k' v m :
  k' <> k -> assoc k' (insert_index n k v m) = assoc k' m.
Proof.
  intros Hne. induction m as [|[k0 v0] m IH]; simpl.
  - destruct (String.eqb_spec k' k); [contradiction | reflexivity].
  - destruct (array_index k0) as [n0|]; [destruct (n0 <? n)%N|]; simpl;
      rewrite ?IH; destruct (String.eqb_spec k' k); try contradiction; reflexivity.
Qed.

Lemma assoc_obj_set_eq k v m : assoc k (obj_set k v m) = Some v.
Proof.
  unfold obj_set. destruct (has k m) eqn:Hhas.
  - now apply assoc_update_eq.
  - destruct (array_index k).
    + now apply assoc_insert_index_eq.
    + rewrite assoc_app, (has_false_assoc _ _ Hhas). simpl.
      now rewrite String.eqb_refl.
Qed.

Lemma assoc_obj_set_neq k k' v m : k' <> k -> assoc k' (obj_set k v m) = assoc k' m.
Proof.
  intros Hne. unfold obj_set. destruct (has k m) eqn:Hhas.
  - now apply assoc_update_neq.
  - destruct (array_index k).
    + now apply assoc_insert_index_neq.
    + rewrite assoc_app. destruct (assoc k' m); [reflexivity|]. simpl.
      destruct (String.eqb_spec k' k); [contradiction | reflexivity].
Qed.

Lemma NoDup_obj_set k v m :
  NoDup (map fst m) -> NoDup (map fst (obj_set k v m)).
Proof.
  intros Hnd. unfold obj_set. destruct (has k m) eqn:Hhas.
  - now rewrite keys_update.
  - apply has_false_iff in Hhas. destruct (array_index k).
    + now apply NoDup_insert_index.
    + rewrite map_app. simpl. apply NoDup_app; auto.
      * constructor; [tauto | constructor].
      * intros x Hx [<-|[]]. contradiction.
Qed.

Lemma assoc_Map_set_eq k v (m : Map) : assoc k (Map_set k v m) = Some v.
Proof.
  unfold Map_set. destruct (has k m) eqn:Hhas.
  - now apply assoc_update_eq.
  - rewrite assoc_app, (has_false_assoc _ _ Hhas). simpl.
    now rewrite String.eqb_refl.
Qed.

Lemma assoc_Map_set_neq k k' v (m : Map) :
  k' <> k -> assoc k' (Map_set k v m) = assoc k' m.
Proof.
  intros Hne. unfold Map_set. destruct (has k m) eqn:Hhas.
  - now apply assoc_update_neq.
  - rewrite assoc_app. destruct (assoc k' m); [reflexivity|]. simpl.
    destruct (String.eqb_spec k' k); [contradiction | reflexivity].
Qed.

Lemma NoDup_Map_set k v (m : Map) :
  NoDup (map fst m) -> NoDup (map fst (Map_set k v m)).
Proof.
  intros Hnd. unfold Map_set. destruct (has k m) eqn:Hhas.
  - now rewrite keys_update.
  - apply has_false_iff in Hhas.
    rewrite map_app. simpl. apply NoDup_app; auto.
    + constructor; [tauto | constructor].
    + intros x Hx [<-|[]]. contradiction.
Qed.

(** ** Dotted keys *)

Lemma split_dot_nonempty s : split_dot s <> [].
Proof.
  destruct s as [|c s]; simpl; [discriminate|].
  destruct (Ascii.eqb c "."); [discriminate|].
  destruct (split_dot s); discriminate.
Qed.

Lemma join_split_dot s : join_dot (split_dot s) = s.
Proof.
  induction s as [|c s IH]; simpl; [reflexivity|].
  destruct (Ascii.eqb_spec c ".") as [->|Hne].
  - pose proof (split_dot_nonempty s) as Hs.
    destruct (split_dot s) as [|seg segs]; [contradiction|].
    cbn [join_dot]. simpl. f_equal.
    exact IH.
  - pose proof (split_dot_nonempty s) as Hs.
    destruct (split_dot s) as [|seg segs]; [contradiction|].
    destruct segs as [|seg' segs]; simpl in *; now rewrite IH.
Qed.

Lemma split_dot_single s k : split_dot s = [k] -> k = s.
Proof.
  intros H. rewrite <- (join_split_dot s), H. reflexivity.
Qed.

Lemma split_dot_no_dot s : has_dot s = false -> split_dot s = [s].
Proof.
  induction s as [|c s IH]; simpl; [reflexivity|].
  destruct (Ascii.eqb c "."); [discriminate|].
  intros H. now rewrite IH.
Qed.

(** ** Reading and writing a tree *)

Lemma In_update {A : Type} k (v : A) m e :
  In e (update k v m) -> e = (k, v) \/ In e m.
Proof.
  induction m as [|[k0 v0] m IH]; simpl; [tauto|].
  destruct (String.eqb_spec k k0) as [->|Hne]; simpl.
  - intros [<-|H]; auto.
  - intros [<-|H]; auto. destruct (IH H); auto.
Qed.

Lemma In_insert_index n k v m e :
  In e (insert_index n k v m) -> e = (k, v) \/ In e m.
Proof.
  induction m as [|[k0 v0] m IH]; simpl.
  - intros [<-|[]]. now left.
  - destruct (array_index k0) as [n0|]; [destruct (n0 <? n)%N|]; simpl.
    + intros [<-|H]; auto. destruct (IH H); auto.
    + intros [<-|H]; auto.
    + intros [<-|H]; auto.
Qed.

Lemma In_obj_set k v m e :
  In e (obj_set k v m) -> e = (k, v) \/ In e m.
Proof.
  unfold obj_set. destruct (has k m).
  - apply In_update.
  - destruct (array_index k).
    + apply In_insert_index.
    + rewrite in_app_iff. simpl. intuition.
Qed.

Lemma isFlat_obj_set k s t :
  TranslationJson.isFlat t = true ->
  TranslationJson.isFlat (obj_set k (JStr s) t) = true.
Proof.
  unfold TranslationJson.isFlat. rewrite !forallb_forall.
  intros Hflat e Hin. destruct (In_obj_set _ _ _ _ Hin) as [->|Hold].
  - reflexivity.
  - now apply Hflat.
Qed.

Lemma isFlat_assoc t k v :
  TranslationJson.isFlat t = true -> assoc k t = Some v -> exists s, v = JStr s.
Proof.
  unfold TranslationJson.isFlat. rewrite forallb_forall.
  intros Hflat Hk. apply assoc_In in Hk. specialize (Hflat _ Hk). simpl in Hflat.
  destruct v; try discriminate. eauto.
Qed.

Lemma is_translation_assoc t k v :
  is_translation t = true -> assoc k t = Some v -> is_tree v = true.
Proof.
  unfold is_translation. simpl. rewrite forallb_forall.
  intros Htree Hk. apply assoc_In in Hk. exact (Htree _ Hk).
Qed.

Lemma is_translation_child t k child :
  is_translation t = true -> assoc k t = Some (JObj child) ->
  is_translation child = true.
Proof. intros Ht Hk. exact (is_translation_assoc _ _ _ Ht Hk). Qed.

(** What a tree holds under a key: nothing, a string or a mapping. *)
Lemma tree_child_cases t k :
  is_translation t = true ->
  assoc k t = None \/
  (exists s, assoc k t = Some (JStr s)) \/
  (exists child, assoc k t = Some (JObj child) /\ is_translation child = true).
Proof.
  intros Ht. destruct (assoc k t) as [v|] eqn:Hk; [|now left]. right.
  pose proof (is_translation_assoc _ _ _ Ht Hk) as Hv.
  destruct v; try discriminate; [left | right]; eauto.
Qed.

Lemma setJsonValue_step obj k k2 rest value :
  TranslationJson.setJsonValue obj (k :: k2 :: rest) value =
  match assoc k obj with
  | Some (JObj child) =>
      child' <- TranslationJson.setJsonValue child (k2 :: rest) value ;;
      Ret (obj_set k (JObj child') obj)
  | Some JNull => Throw TypeError
  | Some (JArr _) => Unmodelled
  | _ =>
      child' <- TranslationJson.setJsonValue [] (k2 :: rest) value ;;
      Ret (obj_set k (JObj child') (obj_set k (JObj []) obj))
  end.
Proof. reflexivity. Qed.

Lemma getJsonValue_step obj k k2 rest :
  TranslationJson.getJsonValue obj (k :: k2 :: rest) =
  match assoc k obj with
  | Some (JObj child) => TranslationJson.getJsonValue child (k2 :: rest)
  | Some (JArr items) => TranslationJson.getJsonValue (array_props items) (k2 :: rest)
  | Some JNull => Throw TypeError
  | _ => Ret None
  end.
Proof. reflexivity. Qed.

Lemma setJsonValue_returns keys : forall obj v,
  is_translation obj = true ->
  exists obj', TranslationJson.setJsonValue obj keys (JStr v) = Ret obj'.
Proof.
  induction keys as [|k rest IH]; intros obj v Hobj; [simpl; eauto|].
  destruct rest as [|k2 rest]; [simpl; eauto|].
  rewrite setJsonValue_step.
  destruct (tree_child_cases obj k Hobj)
    as [-> | [[s ->] | (child & -> & Hchild)]].
  - destruct (IH [] v eq_refl) as [c' ->]. simpl. eauto.
  - destruct (IH [] v eq_refl) as [c' ->]. simpl. eauto.
  - destruct (IH child v Hchild) as [c' ->]. simpl. eauto.
Qed.

Lemma getJsonValue_after_set keys : forall obj v obj',
  keys <> [] ->
  TranslationJson.setJsonValue obj keys (JStr v) = Ret obj' ->
  TranslationJson.getJsonValue obj' keys = Ret (Some v).
Proof.
  induction keys as [|k rest IH]; intros obj v obj' Hne Hset; [contradiction|].
  destruct rest as [|k2 rest].
  - simpl in *. injection Hset as <-. now rewrite assoc_obj_set_eq.
  - assert (Hchild : exists child',
               assoc k obj' = Some (JObj child') /\
               TranslationJson.getJsonValue child' (k2 :: rest) = Ret (Some v)).
    { rewrite setJsonValue_step in Hset.
      destruct (assoc k obj) as [[| | | |items|child]|];
        try discriminate;
        match type of Hset with
        | bind (TranslationJson.setJsonValue ?c _ _) _ = _ =>
            destruct (TranslationJson.setJsonValue c (k2 :: rest) (JStr v))
              as [c'| |] eqn:Hrec; try discriminate
        end;
        simpl in Hset; injection Hset as <-;
        exists c'; rewrite assoc_obj_set_eq;
        (split; [reflexivity | eapply IH; [discriminate | exact Hrec]]). }
    destruct Hchild as (child' & Hk & Hget).
    now rewrite getJsonValue_step, Hk.
Qed.

Lemma setJsonValue_nested_not_flat k k2 rest obj v obj' :
  TranslationJson.setJsonValue obj (k :: k2 :: rest) v = Ret obj' ->
  TranslationJson.isFlat obj' = false.
Proof.
  intros Hset.
  assert (Hk : exists child', assoc k obj' = Some (JObj child')).
  { rewrite setJsonValue_step in Hset.
    destruct (assoc k obj) as [[| | | |items|child]|];
      try discriminate;
      match type of Hset with
      | bind (TranslationJson.setJsonValue ?c _ _) _ = _ =>
          destruct (TranslationJson.setJsonValue c (k2 :: rest) v)
            as [c'| |]; try discriminate
      end;
      simpl in Hset; injection Hset as <-;
      exists c'; now rewrite assoc_obj_set_eq. }
  destruct Hk as [child' Hk].
  destruct (TranslationJson.isFlat obj') eqn:Hflat; [|reflexivity].
  destruct (isFlat_assoc _ _ _ Hflat Hk) as [s Hs]. discriminate.
Qed.

(** On any file at all: when [setValue] returns, [getValue] reads the
    value back. *)
Lemma getValue_reads_back (t : record) (key value : string) (t' : record) :
  TranslationJson.setValue t key value = Ret t' ->
  TranslationJson.getValue t' key = Ret (mkKV key value).
Proof.
  unfold TranslationJson.setValue.
  destruct (TranslationJson.isFlat t) eqn:Hflat.
  - intros [= <-]. unfold TranslationJson.getValue.
    now rewrite (isFlat_obj_set key value t Hflat), assoc_obj_set_eq.
  - intros Hset.
    pose proof (getJsonValue_after_set _ _ _ _ (split_dot_nonempty key) Hset) as Hget.
    unfold TranslationJson.getValue.
    destruct (TranslationJson.isFlat t') eqn:Hflat'.
    + destruct (split_dot key) as [|k [|k2 rest]] eqn:Hsplit.
      * now destruct (split_dot_nonempty key).
      * apply split_dot_single in Hsplit. subst k.
        simpl in Hset. injection Hset as <-. now rewrite assoc_obj_set_eq.
      * apply setJsonValue_nested_not_flat in Hset. congruence.
    + now rewrite Hget.
Qed.

Lemma setValue_returns (t : record) (key value : string) :
  is_translation t = true ->
  exists t', TranslationJson.setValue t key value = Ret t'.
Proof.
  intros Ht. unfold TranslationJson.setValue.
  destruct (TranslationJson.isFlat t); [eauto|].
  now apply setJsonValue_returns.
Qed.



Lemma set_agrees keys : forall obj value,
  TranslationJson.setJsonValue obj keys value = TranslationJsonFile.set obj keys value.
Proof.
  induction keys as [|k rest IH]; intros obj value; [reflexivity|].
  destruct rest as [|k2 rest]; [reflexivity|].
  rewrite setJsonValue_step.
  change (TranslationJsonFile.set obj (k :: k2 :: rest) value)
    with (match assoc k obj with
          | Some (JObj child) =>
              child' <- TranslationJsonFile.set child (k2 :: rest) value ;;
              Ret (obj_set k (JObj child') obj)
          | Some JNull => Throw TypeError
          | Some (JArr _) => Unmodelled
          | _ =>
              child' <- TranslationJsonFile.set [] (k2 :: rest) value ;;
              Ret (obj_set k (JObj child') (obj_set k (JObj []) obj))
          end).
  destruct (assoc k obj) as [[| | | |items|child]|]; now rewrite ?IH.
Qed.

(** C5, as stated, fails: on the flat tree [{"x": "y"}] and the key
    ["a.b"] the flat-detecting [setValue] adds the top-level key ["a.b"],
    the recursive one adds a mapping ["a"] holding ["b"]. *)
Lemma set_variants_differ :
  ~ (forall (t : record) (key value : string),
        is_translation t = true ->
        TranslationJson.setValue t key value =
        TranslationJsonFile.setValue t key (JStr value)).
Proof.
  intros H. specialize (H [("x", JStr "y")] "a.b" "v" eq_refl).
  vm_compute in H. discriminate.
Qed.

(** C5, amended.  The two set variants leave identical trees (or fail
    alike) on every nested tree, and on every flat tree when the key
    contains no ['.']. *)
Theorem set_variants_agree (t : record) (key value : string) :
  TranslationJson.isFlat t = false \/ has_dot key = false ->
  TranslationJson.setValue t key value =
  TranslationJsonFile.setValue t key (JStr value).
Proof.
  intros H. unfold TranslationJson.setValue, TranslationJsonFile.setValue.
  destruct (TranslationJson.isFlat t) eqn:Hflat.
  - destruct H as [H|H]; [discriminate|].
    now rewrite (split_dot_no_dot key H).
  - apply set_agrees.
Qed.

Lemma set_variants_agree_witness :
  (TranslationJson.isFlat ex_base = false \/ has_dot "b.c" = false) /\
  TranslationJson.setValue ex_base "b.c" "Monde" =
  TranslationJsonFile.setValue ex_base "b.c" (JStr "Monde").
Proof.
  split; [left; reflexivity | apply (set_variants_agree ex_base); left; reflexivity].
Defined.

Lemma getJsonValue_resolve keys : forall obj,
  is_translation obj = true ->
  TranslationJson.getJsonValue obj keys = Ret (resolve obj keys).
Proof.
  induction keys as [|k rest IH]; intros obj Hobj; [reflexivity|].
  destruct rest as [|k2 rest].
  - simpl. unfold leaf. now destruct (assoc k obj) as [[| | | | |]|].
  - rewrite getJsonValue_step.
    change (resolve obj (k :: k2 :: rest))
      with (match assoc k obj with
            | Some (JObj child) => resolve child (k2 :: rest)
            | _ => None
            end).
    destruct (tree_child_cases obj k Hobj)
      as [-> | [[s ->] | (child & -> & Hchild)]]; auto.
Qed.




(** Beyond translation trees: whatever else JSON.parse produced
    (numbers, booleans, arrays), [getValue] returns as long as the file
    holds no null. *)
Lemma null_free_array_props items :
  forallb null_free items = true ->
  forallb (fun kv => null_free (snd kv)) (array_props items) = true.
Proof.
  intros H. unfold array_props. rewrite forallb_app. simpl. rewrite andb_true_r.
  rewrite forallb_forall in *. intros [k v] Hin. simpl.
  apply in_combine_r in Hin. auto.
Qed.

Lemma getJsonValue_returns_without_null keys : forall obj,
  forallb (fun kv => null_free (snd kv)) obj = true ->
  exists found, TranslationJson.getJsonValue obj keys = Ret found.
Proof.
  induction keys as [|k rest IH]; intros obj Hobj; [simpl; eauto|].
  destruct rest as [|k2 rest].
  - simpl. destruct (assoc k obj) as [[| | | | |]|]; eauto.
  - rewrite getJsonValue_step.
    destruct (assoc k obj) as [v|] eqn:Hk; [|eauto].
    apply assoc_In in Hk. rewrite forallb_forall in Hobj.
    specialize (Hobj _ Hk). simpl in Hobj.
    destruct v as [| | | |items|child]; eauto; try discriminate.
    apply IH. now apply null_free_array_props.
Qed.

Lemma getValue_returns_without_null (t : record) (key : string) :
  null_free (JObj t) = true ->
  exists kv, TranslationJson.getValue t key = Ret kv.
Proof.
  intros Ht. unfold TranslationJson.getValue.
  destruct (TranslationJson.isFlat t); [eauto|].
  destruct (getJsonValue_returns_without_null (split_dot key) t Ht) as [found ->].
  simpl. eauto.
Qed.

(** A null node on the path makes both accessors throw, [typeof null]
    being ['object'], and so does flattening a file that holds one. *)
Lemma null_on_the_path_throws :
  TranslationJson.getValue [("a", JNull); ("b", JObj [])] "a.x" = Throw TypeError /\
  TranslationJson.setValue [("a", JNull); ("b", JObj [])] "a.x" "v" = Throw TypeError /\
  TranslationJson.flatten [("a", JNull)] = Throw TypeError.
Proof. repeat split. Qed.

(** ** Flattening *)

Lemma flattenJson_obj entries parentKeys result :
  TranslationJson.flattenJson (JObj entries) parentKeys result =
  flattenEntries parentKeys entries result.
Proof. reflexivity. Qed.

Lemma flattenJson_tree j :
  forall entries, j = JObj entries ->
  is_tree j = true ->
  forall parentKeys result,
    NoDup (map fst result) ->
    exists r, TranslationJson.flattenJson j parentKeys result = Ret r /\
              NoDup (map fst r).
Proof.
  induction j as [| | | | |props IH] using json_ind;
    intros entries Heq Htree parentKeys; try discriminate.
  clear entries Heq. simpl in Htree.
  intros result Hnd. rewrite flattenJson_obj. revert result Hnd.
  induction props as [|[k v] props IHprops]; intros result Hnd.
  - simpl. eauto.
  - inversion IH as [|? ? Hv Hrest]; subst. simpl in Hv.
    simpl in Htree. apply andb_prop in Htree. destruct Htree as [Hvt Hpt].
    specialize (IHprops Hrest Hpt).
    destruct v as [| | |s|items|child]; try discriminate.
    + simpl. apply IHprops. now apply NoDup_Map_set.
    + destruct (Hv child eq_refl Hvt (parentKeys ++ [k]) result Hnd)
        as (r1 & Hr1 & Hnd1).
      cbn [flattenEntries]. rewrite Hr1. simpl. now apply IHprops.
Qed.

Lemma flatten_tree t :
  is_translation t = true ->
  exists r, TranslationJson.flatten t = Ret r /\ NoDup (map fst r).
Proof.
  intros Ht. unfold TranslationJson.flatten.
  apply (flattenJson_tree (JObj t) t eq_refl Ht). constructor.
Qed.

(** ** The diff *)

Lemma fold_left_push {A B : Type} (p : A -> bool) (f : A -> B) l : forall acc,
  fold_left (fun acc e => if p e then acc ++ [f e] else acc) l acc =
  acc ++ map f (filter p l).
Proof.
  induction l as [|x l IH]; intros acc; simpl.
  - now rewrite app_nil_r.
  - rewrite IH. destruct (p x); simpl; [now rewrite <- app_assoc | reflexivity].
Qed.

Lemma diff_of_flattened this_json other_json selfMap otherMap :
  TranslationJson.flatten this_json = Ret selfMap ->
  TranslationJson.flatten other_json = Ret otherMap ->
  TranslationJson.diff this_json other_json =
  Ret (map entry (filter (absent_or_differs otherMap) selfMap) ++
       map entry (filter (absent_from selfMap) otherMap)).
Proof.
  intros Hs Ho. unfold TranslationJson.diff. rewrite Hs, Ho. simpl. f_equal.
  rewrite <- (fold_left_push (absent_from selfMap) entry otherMap).
  rewrite <- (app_nil_l (map entry (filter (absent_or_differs otherMap) selfMap))).
  rewrite <- (fold_left_push (absent_or_differs otherMap) entry selfMap).
  assert (E1 : forall l acc,
             fold_left
               (fun (diff : list TranslationKeyValue) (e : string * string) =>
                  let (selfKey, selfValue) := e in
                  match assoc selfKey otherMap with
                  | Some otherValue =>
                      if String.eqb otherValue selfValue then diff
                      else diff ++ [mkKV selfKey selfValue]
                  | None => diff ++ [mkKV selfKey selfValue]
                  end) l acc =
             fold_left (fun acc e => if absent_or_differs otherMap e
                                     then acc ++ [entry e] else acc) l acc).
  { induction l as [|[k v] l IH]; intros acc; simpl; [reflexivity|].
    rewrite IH. unfold absent_or_differs, entry. simpl.
    destruct (assoc k otherMap) as [ov|]; [|reflexivity].
    now destruct (String.eqb ov v). }
  assert (E2 : forall l acc,
             fold_left
               (fun (diff : list TranslationKeyValue) (e : string * string) =>
                  let (otherKey, otherValue) := e in
                  if has otherKey selfMap then diff
                  else diff ++ [mkKV otherKey otherValue]) l acc =
             fold_left (fun acc e => if absent_from selfMap e
                                     then acc ++ [entry e] else acc) l acc).
  { induction l as [|[k v] l IH]; intros acc; simpl; [reflexivity|].
    rewrite IH. unfold absent_from, entry. simpl.
    now destruct (has k selfMap). }
  now rewrite E1, E2.
Qed.

(** C1.  For every pair of translation trees both flatten, each key once,
    and [diff] returns: in base flatten order, the base entries whose key
    is absent from the other flattened form or has another value there,
    with the base's own value; then, in the other's flatten order, the
    other's entries whose key the base lacks.  On the example of the
    specification this is [("a", "Hello"); ("d", "New")]. *)
Theorem diff_emits_base_values :
  (forall base other : record,
      is_translation base = true ->
      is_translation other = true ->
      exists selfMap otherMap,
        TranslationJson.flatten base = Ret selfMap /\
        TranslationJson.flatten other = Ret otherMap /\
        NoDup (map fst selfMap) /\
        NoDup (map fst otherMap) /\
        TranslationJson.diff base other =
        Ret (map entry (filter (absent_or_differs otherMap) selfMap) ++
             map entry (filter (absent_from selfMap) otherMap))) /\
  TranslationJson.diff ex_base ex_patched =
  Ret [mkKV "a" "Hello"; mkKV "d" "New"].
Proof.
  split; [|reflexivity].
  intros base other Hb Ho.
  destruct (flatten_tree base Hb) as (selfMap & Hs & Hnds).
  destruct (flatten_tree other Ho) as (otherMap & Hom & Hndo).
  exists selfMap, otherMap. repeat split; try assumption.
  now apply diff_of_flattened.
Qed.

Lemma diff_emits_base_values_witness :
  is_translation ex_base = true /\
  is_translation ex_patched = true /\
  exists selfMap otherMap,
    TranslationJson.flatten ex_base = Ret selfMap /\
    TranslationJson.flatten ex_patched = Ret otherMap /\
    NoDup (map fst selfMap) /\
    NoDup (map fst otherMap) /\
    TranslationJson.diff ex_base ex_patched =
    Ret (map entry (filter (absent_or_differs otherMap) selfMap) ++
         map entry (filter (absent_from selfMap) otherMap)).
Proof.
  split; [reflexivity|]. split; [reflexivity|].
  apply (proj1 diff_emits_base_values ex_base ex_patched); reflexivity.
Defined.

(** ** Flatten, then set every entry on the empty tree *)

Lemma reapply_on_flat entries : forall t,
  TranslationJson.isFlat t = true ->
  fold_left
    (fun (acc : outcome record) (e : string * string) =>
       t <- acc ;; TranslationJson.setValue t (fst e) (snd e))
    entries (Ret t) =
  Ret (fold_left set_entry entries t).
Proof.
  induction entries as [|e entries IH]; intros t Hflat; simpl; [reflexivity|].
  unfold TranslationJson.setValue at 2. rewrite Hflat.
  apply IH. now apply isFlat_obj_set.
Qed.

Lemma set_entries_flat entries : forall t,
  TranslationJson.isFlat t = true ->
  TranslationJson.isFlat (fold_left set_entry entries t) = true.
Proof.
  induction entries as [|e entries IH]; intros t Hflat; simpl; [assumption|].
  apply IH. now apply isFlat_obj_set.
Qed.

Lemma set_entries_NoDup entries : forall t,
  NoDup (map fst t) -> NoDup (map fst (fold_left set_entry entries t)).
Proof.
  induction entries as [|e entries IH]; intros t Hnd; simpl; [assumption|].
  apply IH. now apply NoDup_obj_set.
Qed.

Lemma assoc_set_entries (entries : Map) : forall t k,
  NoDup (map fst entries) ->
  assoc k (fold_left set_entry entries t) =
  match assoc k entries with
  | Some s => Some (JStr s)
  | None => assoc k t
  end.
Proof.
  induction entries as [|[k0 s0] entries IH]; intros t k Hnd; simpl; [reflexivity|].
  inversion Hnd as [|? ? Hnotin Hnd']; subst.
  rewrite IH by assumption. unfold set_entry. simpl.
  destruct (String.eqb_spec k k0) as [->|Hne].
  - apply has_false_iff in Hnotin.
    now rewrite (has_false_assoc _ _ Hnotin), assoc_obj_set_eq.
  - destruct (assoc k entries); [reflexivity|]. now apply assoc_obj_set_neq.
Qed.

Lemma flattenEntries_flat t : forall result,
  TranslationJson.isFlat t = true ->
  NoDup (map fst t) ->
  NoDup (map fst result) ->
  exists r,
    flattenEntries [] t result = Ret r /\
    NoDup (map fst r) /\
    forall k, assoc k r =
              match leaf t k with Some s => Some s | None => assoc k result end.
Proof.
  induction t as [|[k0 v0] t IH]; intros result Hflat Hnd Hres.
  - exists result. simpl. auto.
  - simpl in Hflat. apply andb_prop in Hflat. destruct Hflat as [Hv Hflat].
    destruct v0 as [| | |s0| |]; try discriminate.
    inversion Hnd as [|? ? Hnotin Hnd']; subst.
    destruct (IH (Map_set k0 s0 result) Hflat Hnd' (NoDup_Map_set _ _ _ Hres))
      as (r & Hr & Hndr & Hassoc).
    exists r. split; [exact Hr|]. split; [exact Hndr|].
    intros k. rewrite Hassoc. unfold leaf. simpl.
    destruct (String.eqb_spec k k0) as [->|Hne].
    + apply has_false_iff in Hnotin.
      now rewrite (has_false_assoc _ _ Hnotin), assoc_Map_set_eq.
    + destruct (assoc k t) as [[| | | | |]|]; try reflexivity;
        now apply assoc_Map_set_neq.
Qed.

Lemma same_bindings_Permutation (m1 m2 : Map) :
  NoDup (map fst m1) -> NoDup (map fst m2) ->
  (forall k, assoc k m1 = assoc k m2) ->
  Permutation m1 m2.
Proof.
  intros H1 H2 Heq. apply NoDup_Permutation.
  - eapply NoDup_map_inv, H1.
  - eapply NoDup_map_inv, H2.
  - intros [k v]. split; intros Hin.
    + apply assoc_In. rewrite <- Heq. now apply In_assoc.
    + apply assoc_In. rewrite Heq. now apply In_assoc.
Qed.



(** The order of the entries can change: an object lists its array-index
    keys first. *)
Lemma reapply_can_reorder :
  TranslationJson.flatten [("0", JObj [("a", JStr "x")]); ("1", JStr "y")] =
    Ret [("0.a", "x"); ("1", "y")] /\
  reapply [("0.a", "x"); ("1", "y")] = Ret [("1", JStr "y"); ("0.a", JStr "x")] /\
  TranslationJson.flatten [("1", JStr "y"); ("0.a", JStr "x")] =
    Ret [("1", "y"); ("0.a", "x")].
Proof. repeat split. Qed.

(** ** The translation client *)

Lemma GetSubstitution_no_dollar matched before after replacement :
  no_dollar replacement = true ->
  GetSubstitution matched before after replacement = replacement.
Proof.
  induction replacement as [|c rest IH]; simpl; [reflexivity|].
  destruct (Ascii.eqb c "$"); simpl; [discriminate|].
  intros H. now rewrite IH.
Qed.

Lemma placeholder_position :
  String.index 0 "{:language}" LLMTranslation.LLM_SYSTEM_PROMPT =
  Some (String.length LLMTranslation.prompt_head).
Proof. vm_compute. reflexivity. Qed.

Lemma before_placeholder :
  String.substring 0 (String.length LLMTranslation.prompt_head)
    LLMTranslation.LLM_SYSTEM_PROMPT = LLMTranslation.prompt_head.
Proof. vm_compute. reflexivity. Qed.

Lemma after_placeholder :
  let j := String.length LLMTranslation.prompt_head + String.length "{:language}" in
  String.substring j (String.length LLMTranslation.LLM_SYSTEM_PROMPT - j)
    LLMTranslation.LLM_SYSTEM_PROMPT = LLMTranslation.prompt_tail.
Proof. vm_compute. reflexivity. Qed.

Lemma replace_placeholder replacement :
  no_dollar replacement = true ->
  replace LLMTranslation.LLM_SYSTEM_PROMPT "{:language}" replacement =
  (LLMTranslation.prompt_head ++ replacement ++ LLMTranslation.prompt_tail)%string.
Proof.
  intros H. unfold replace.
  rewrite placeholder_position, before_placeholder.
  pose proof after_placeholder as Hafter. cbv zeta in Hafter. rewrite Hafter.
  now rewrite GetSubstitution_no_dollar.
Qed.

Lemma prompt_for_name (languageName : string) :
  no_dollar languageName = true ->
  LLMTranslation.generateSystemPrompt languageName =
  (LLMTranslation.prompt_head ++
   (if String.eqb (toLowerCase languageName) "xhosa"
    then "English" else languageName) ++
   LLMTranslation.prompt_tail)%string.
Proof.
  intros Hplain. unfold LLMTranslation.generateSystemPrompt.
  apply replace_placeholder.
  now destruct (String.eqb (toLowerCase languageName) "xhosa").
Qed.

(** C9.  For every display name (free of ['$'], which [replace] would
    expand), the system prompt is the preamble with the name in the place
    of its placeholder, except that a name equal to "xhosa" up to case
    puts "English" there; so for "Xhosa" itself. *)
Theorem generateSystemPrompt_substitutes :
  (forall languageName : string,
      no_dollar languageName = true ->
      LLMTranslation.generateSystemPrompt languageName =
      (LLMTranslation.prompt_head ++
       (if String.eqb (toLowerCase languageName) "xhosa"
        then "English" else languageName) ++
       LLMTranslation.prompt_tail)%string) /\
  LLMTranslation.generateSystemPrompt "Xhosa" =
  (LLMTranslation.prompt_head ++ "English" ++ LLMTranslation.prompt_tail)%string.
Proof.
  split; [exact prompt_for_name | apply (prompt_for_name "Xhosa"); reflexivity].
Qed.

Lemma generateSystemPrompt_substitutes_witness :
  no_dollar "French" = true /\
  LLMTranslation.generateSystemPrompt "French" =
  (LLMTranslation.prompt_head ++ "French" ++ LLMTranslation.prompt_tail)%string /\
  LLMTranslation.generateSystemPrompt "XHOSA" =
  (LLMTranslation.prompt_head ++ "English" ++ LLMTranslation.prompt_tail)%string.
Proof.
  split; [reflexivity|]. split.
  - apply (proj1 generateSystemPrompt_substitutes "French"). reflexivity.
  - apply (proj1 generateSystemPrompt_substitutes "XHOSA"). reflexivity.
Defined.

(** Every display name of the registry is free of ['$'], and the file
    [xh.json] resolves to Xhosa, whose prompt says English. *)
Lemma registry_names_no_dollar :
  forallb (fun e => no_dollar (snd e)) Language.entries = true.
Proof. vm_compute. reflexivity. Qed.

Lemma registry_prompt code name :
  Language.getLanguageByCode code = Some (code, name) ->
  LLMTranslation.generateSystemPrompt name =
  (LLMTranslation.prompt_head ++
   (if String.eqb (toLowerCase name) "xhosa" then "English" else name) ++
   LLMTranslation.prompt_tail)%string.
Proof.
  intros Hcode. apply prompt_for_name.
  unfold Language.getLanguageByCode in Hcode.
  destruct (assoc code Language.entries) as [n|] eqn:Hn; [|discriminate].
  assert (n = name) by (destruct n; [discriminate | now injection Hcode]).
  subst n. apply assoc_In in Hn.
  pose proof registry_names_no_dollar as Hall. rewrite forallb_forall in Hall.
  exact (Hall _ Hn).
Qed.

Lemma xh_file_prompt :
  Language.ofFileName "xh.json" = Some ("xh", "Xhosa") /\
  LLMTranslation.generateSystemPrompt "Xhosa" =
  (LLMTranslation.prompt_head ++ "English" ++ LLMTranslation.prompt_tail)%string.
Proof. split; [reflexivity | apply (prompt_for_name "Xhosa"); reflexivity]. Qed.

Lemma nth_error_mapi_from {A B : Type} (f : A -> nat -> B) l : forall start i,
  nth_error (LLMTranslation.mapi_from f start l) i =
  option_map (fun x => f x (start + i)) (nth_error l i).
Proof.
  induction l as [|x l IH]; intros start i; simpl.
  - now destruct i.
  - destruct i as [|i]; simpl.
    + now rewrite Nat.add_0_r.
    + rewrite IH. now rewrite Nat.add_succ_r.
Qed.

Lemma length_mapi_from {A B : Type} (f : A -> nat -> B) l : forall start,
  length (LLMTranslation.mapi_from f start l) = length l.
Proof. induction l as [|x l IH]; intros start; simpl; [reflexivity | now rewrite IH]. Qed.

(** C7.  When the backend answers the request of a batch with a response
    map, [processTranslations] returns one entry per input entry, in the
    same order and under the same key; its value is the response's string
    at the entry's index when there is one, the entry's own value
    otherwise. *)
Theorem processTranslations_maps_response
  (remote : LLMTranslation.backend) (language_name : string)
  (translations : list TranslationKeyValue) (response : list (string * string))
  (w : LLMTranslation.world) :
  remote (length w) (LLMTranslation.request_for language_name translations) =
    LLMTranslation.Translations response ->
  exists out,
    LLMTranslation.processTranslations remote language_name translations w =
      (Ret (Some out), w ++ [LLMTranslation.request_for language_name translations]) /\
    length out = length translations /\
    forall i t,
      nth_error translations i = Some t ->
      nth_error out i =
      Some (mkKV (key t)
              (match assoc (String_of_nat i) response with
               | Some translated => translated
               | None => value t
               end)).
Proof.
  intros Hreply.
  unfold LLMTranslation.processTranslations, LLMTranslation.bindM,
    LLMTranslation.sendLLMRequest.
  fold (LLMTranslation.request_for language_name translations).
  rewrite Hreply. unfold LLMTranslation.ret.
  eexists. split; [reflexivity|]. split.
  - apply length_mapi_from.
  - intros i t Hi. unfold LLMTranslation.mapi.
    now rewrite nth_error_mapi_from, Hi.
Qed.

Lemma processTranslations_maps_response_witness :
  exists out,
    LLMTranslation.processTranslations
      (fun _ _ => LLMTranslation.Translations [("0", "Bonjour")])
      "French" two_entries [] =
      (Ret (Some out), [] ++ [LLMTranslation.request_for "French" two_entries]) /\
    length out = length two_entries /\
    forall i t,
      nth_error two_entries i = Some t ->
      nth_error out i =
      Some (mkKV (key t)
              (match assoc (String_of_nat i) [("0", "Bonjour")] with
               | Some translated => translated
               | None => value t
               end)).
Proof.
  apply (processTranslations_maps_response
           (fun _ _ => LLMTranslation.Translations [("0", "Bonjour")])
           "French" two_entries [("0", "Bonjour")] []).
  reflexivity.
Defined.

(** C2 does not hold of the code.  With two batches of one entry and a
    backend whose first call fails, [translate] throws the backend's
    error after that single request: the second batch, which the backend
    would have translated, is never sent, and nothing is returned. *)
Theorem translate_stops_at_failed_batch :
  LLMTranslation.batches two_entries 1 = Ret [[mkKV "a" "Hello"]; [mkKV "b" "World"]] /\
  fst (LLMTranslation.translate first_call_fails "French" two_entries 1 []) =
    Throw (Error "503") /\
  snd (LLMTranslation.translate first_call_fails "French" two_entries 1 []) =
    [LLMTranslation.request_for "French" [mkKV "a" "Hello"]] /\
  fst (LLMTranslation.processTranslations first_call_fails "French"
         [mkKV "b" "World"]
         [LLMTranslation.request_for "French" [mkKV "a" "Hello"]]) =
    Ret (Some [mkKV "b" "Monde"]).
Proof. repeat split. Qed.

(** A batch is skipped, and the others still translated, only when the
    response parses to a falsy value. *)
Lemma translate_skips_falsy_batch :
  fst (LLMTranslation.translate
         (fun n _ => match n with
                     | 0 => LLMTranslation.Falsy
                     | _ => LLMTranslation.Translations [("0", "Monde")]
                     end)
         "French" two_entries 1 []) = Ret [mkKV "b" "Monde"].
Proof. reflexivity. Qed.

(** ** The retry wrapper on the examples *)

Lemma SafeAsync_run_outcomes_witness :
  (exists r this',
      SafeAsync.run fails_twice SafeAsync.default_retries SafeAsync.fresh 0 =
        (SafeAsync.Fulfilled r, this', 3) /\
      SafeAsync.result r = Some "done" /\
      SafeAsync.errors r = [] /\
      length (SafeAsync.this_errors this') = 2) /\
  (exists r this',
      SafeAsync.run always_fails SafeAsync.default_retries SafeAsync.fresh 0 =
        (SafeAsync.Fulfilled r, this', 3) /\
      SafeAsync.result r = None /\
      length (SafeAsync.errors r) = 3).
Proof.
  split.
  - destruct (SafeAsync_run_outcomes fails_twice SafeAsync.default_retries)
      as (_ & Hok & _).
    destruct (Hok 2 0 _ _ "done" 3 eq_refl eq_refl (le_n 3))
      as (r & this' & Hrun & Hres & Hnone & _ & Hlen & _).
    exists r, this'. repeat split; assumption.
  - destruct (SafeAsync_run_outcomes always_fails SafeAsync.default_retries)
      as (_ & _ & Hko).
    destruct (Hko 0 _ _ eq_refl)
      as (r & this' & Hrun & Hres & _ & Hlen & _).
    exists r, this'. repeat split; assumption.
Defined.

(** C4, as stated, fails: after two failures and a success the object
    [run] resolves to carries the value and the literal [[]] as its
    errors, not the two errors; they are kept on the instance only. *)
Lemma run_success_returns_no_errors :
  ~ (exists r this' w',
        SafeAsync.run fails_twice SafeAsync.default_retries SafeAsync.fresh 0 =
          (SafeAsync.Fulfilled r, this', w') /\
        SafeAsync.result r = Some "done" /\
        length (SafeAsync.errors r) = 2).
Proof.
  intros (r & this' & w' & Hrun & _ & Hlen).
  vm_compute in Hrun. injection Hrun as <- _ _. discriminate.
Qed.

(** The whole outcome of that run. *)
Lemma run_fails_twice :
  SafeAsync.run fails_twice 3 SafeAsync.fresh 0 =
  (SafeAsync.Fulfilled (SafeAsync.mkReport (Some "done") []),
   SafeAsync.mkInstance [Error "timeout"; Error "timeout"] [1000; 2000], 3).
Proof. reflexivity. Qed.

(** * More properties of the code *)

(** ** The retry wrapper, again *)

Section MoreSafeAsync.
Context {W T : Type}.
Variable fn : W -> SafeAsync.settled T * W.
Variable retries : nat.

Lemma earlier_loop_agrees n : forall i this w,
  exists r this' w',
    SafeAsync.loop fn retries n i this w = (SafeAsync.Fulfilled r, this', w') /\
    Earlier.loop fn retries n i this w =
      (SafeAsync.Fulfilled (SafeAsync.result r), this', w').
Proof.
  induction n as [|n IH]; intros i this w; simpl.
  - do 3 eexists. split; reflexivity.
  - destruct (fn w) as [[v|e] w1].
    + do 3 eexists. split; reflexivity.
    + destruct (i =? retries - 1).
      * do 3 eexists. split; reflexivity.
      * apply IH.
Qed.

Lemma list_sum_backoff m :
  list_sum (map SafeAsync.backoff (seq 0 m)) = (2 ^ m - 1) * 1000.
Proof.
  induction m as [|m IH].
  - reflexivity.
  - rewrite seq_S, map_app, list_sum_app, IH. simpl.
    unfold SafeAsync.backoff.
    assert (0 < 2 ^ m) by (apply Nat.neq_0_lt_0, Nat.pow_nonzero; discriminate).
    lia.
Qed.
End MoreSafeAsync.

(** X1.  The earlier [run], which resolves to the bare value or null,
    and the current one always agree: same result, same errors kept on
    the instance, same waits, same effects on the world. *)
Theorem earlier_run_agrees {W T : Type}
  (fn : W -> SafeAsync.settled T * W) (retries : nat)
  (this : SafeAsync.instance) (w : W) :
  exists r this' w',
    SafeAsync.run fn retries this w = (SafeAsync.Fulfilled r, this', w') /\
    Earlier.run fn retries this w =
      (SafeAsync.Fulfilled (SafeAsync.result r), this', w').
Proof. apply earlier_loop_agrees. Qed.

(** X2.  The errors live on the instance: when [run] is called on an
    instance that already holds errors and the operation rejects on all
    [retries] calls (at least one), the list it returns is the old errors
    followed by the new ones. *)
Theorem run_reports_earlier_errors {W T : Type}
  (fn : W -> SafeAsync.settled T * W) (retries : nat)
  (this : SafeAsync.instance) (w : W) (es : list error) (w1 : W) :
  SafeAsync.rejections fn retries w = Some (es, w1) ->
  exists r this',
    SafeAsync.run fn retries this w = (SafeAsync.Fulfilled r, this', w1) /\
    SafeAsync.result r = None /\
    SafeAsync.errors r = SafeAsync.this_errors this ++ es /\
    length (SafeAsync.errors r) = length (SafeAsync.this_errors this) + retries /\
    SafeAsync.this_errors this' = SafeAsync.this_errors this ++ es.
Proof.
  intros Hrej.
  destruct (loop_rejections fn retries retries retries 0 this w es w1
              Hrej eq_refl (le_n _)) as [_ Hko].
  unfold SafeAsync.run. rewrite (Hko eq_refl).
  do 2 eexists. split; [reflexivity|]. simpl.
  split; [reflexivity|]. split; [reflexivity|]. split; [|reflexivity].
  rewrite length_app. f_equal. exact (rejections_length fn _ _ _ _ Hrej).
Qed.

Lemma run_reports_earlier_errors_witness :
  exists r this',
    SafeAsync.run always_fails 3 (SafeAsync.mkInstance [Error "old"] []) 0 =
      (SafeAsync.Fulfilled r, this', 3) /\
    SafeAsync.result r = None /\
    length (SafeAsync.errors r) = 4.
Proof.
  destruct (run_reports_earlier_errors always_fails 3
              (SafeAsync.mkInstance [Error "old"] []) 0 _ 3 eq_refl)
    as (r & this' & Hrun & Hres & _ & Hlen & _).
  exists r, this'. repeat split; assumption.
Defined.

(** X3.  When the operation rejects on all [retries] calls, a fresh
    wrapper has waited 2^(retries-1) - 1 seconds in all. *)
Theorem run_total_wait {W T : Type}
  (fn : W -> SafeAsync.settled T * W) (retries : nat) (w : W)
  (es : list error) (w1 : W) :
  SafeAsync.rejections fn retries w = Some (es, w1) ->
  exists r this',
    SafeAsync.run fn retries SafeAsync.fresh w = (SafeAsync.Fulfilled r, this', w1) /\
    list_sum (SafeAsync.delays this') = (2 ^ (retries - 1) - 1) * 1000.
Proof.
  intros Hrej.
  destruct (loop_rejections fn retries retries retries 0 SafeAsync.fresh w es w1
              Hrej eq_refl (le_n _)) as [_ Hko].
  unfold SafeAsync.run. rewrite (Hko eq_refl).
  do 2 eexists. split; [reflexivity|]. simpl. apply list_sum_backoff.
Qed.

Lemma run_total_wait_witness :
  exists r this',
    SafeAsync.run always_fails 3 SafeAsync.fresh 0 = (SafeAsync.Fulfilled r, this', 3) /\
    list_sum (SafeAsync.delays this') = 3000.
Proof.
  exact (run_total_wait always_fails 3 0 _ 3 eq_refl).
Defined.

(** ** Batching with a chunk size of 0 *)

Lemma create_loop_zero {T : Type} (items : list T) fuel : forall batch,
  items <> [] -> Batch.create_loop fuel items 0 0 batch = None.
Proof.
  induction fuel as [|fuel IH]; intros batch Hne; simpl;
    destruct items as [|x items]; try contradiction; simpl.
  - reflexivity.
  - apply (IH _ Hne).
Qed.

(** X4.  With [batchSize] 0 and at least one item, the loop of
    [Batch.create] never ends, whatever the fuel, and the batching step
    of [translate] throws a RangeError. *)
Theorem batch_size_zero {T : Type} (items : list T) :
  items <> [] ->
  (forall fuel, Batch.create fuel items 0 = None) /\
  LLMTranslation.batches items 0 = Throw RangeError.
Proof.
  intros Hne. split.
  - intros fuel. now apply create_loop_zero.
  - destruct items; [contradiction | reflexivity].
Qed.

Lemma batch_size_zero_witness :
  (forall fuel, Batch.create fuel [1; 2] 0 = None) /\
  LLMTranslation.batches [1; 2] 0 = Throw RangeError.
Proof. apply (batch_size_zero [1; 2]). discriminate. Defined.

(** ** Loading the translation files *)

Section LoadingFacts.
Context {F J : Type}.
Variable parse : F -> SafeAsync.settled J.

Lemma load_loop_step file rest result queue :
  Tools.load_loop parse (file :: rest) result queue =
  if (length queue mod 10 =? 0) && (0 <? length queue)
  then Tools.load_loop parse rest (result ++ [queue]) [parse file]
  else Tools.load_loop parse rest result (queue ++ [parse file]).
Proof. reflexivity. Qed.

Lemma load_loop_windows (files : list F) : forall result queue,
  Forall (fun win => length win = 10) result ->
  length queue <= 10 ->
  let (result', queue') := Tools.load_loop parse files result queue in
  concat result' ++ queue' = concat result ++ queue ++ map parse files /\
  Forall (fun win => length win = 10) result' /\
  length queue' <= 10.
Proof.
  induction files as [|file rest IH]; intros result queue Hres Hq.
  - simpl. rewrite app_nil_r. auto.
  - rewrite load_loop_step. cbn [map].
    destruct ((length queue mod 10 =? 0) && (0 <? length queue)) eqn:Hmax.
    + apply andb_prop in Hmax. destruct Hmax as [Hmod Hpos].
      apply Nat.eqb_eq in Hmod. apply Nat.ltb_lt in Hpos.
      assert (Hten : length queue = 10).
      { destruct (Nat.eq_dec (length queue) 10) as [|Hne]; [assumption|].
        rewrite Nat.mod_small in Hmod by lia. lia. }
      specialize (IH (result ++ [queue]) [parse file]).
      destruct (Tools.load_loop parse rest (result ++ [queue]) [parse file])
        as [result' queue'].
      destruct IH as (Hcat & Hall & Hlen).
      * apply Forall_app. split; [assumption | constructor; [assumption | constructor]].
      * simpl. lia.
      * split; [|split; assumption].
        rewrite Hcat, concat_app. simpl. rewrite app_nil_r, <- !app_assoc.
        reflexivity.
    + specialize (IH result (queue ++ [parse file])).
      destruct (Tools.load_loop parse rest result (queue ++ [parse file]))
        as [result' queue'].
      assert (Hlt : length queue < 10).
      { destruct (Nat.eq_dec (length queue) 10) as [E|Hne]; [|lia].
        rewrite E in Hmax. discriminate. }
      destruct IH as (Hcat & Hall & Hlen).
      * assumption.
      * rewrite length_app. simpl. lia.
      * split; [|split; assumption].
        rewrite Hcat, <- !app_assoc. reflexivity.
Qed.

Lemma flat_map_concat {A B : Type} (f : A -> list B) (l : list (list A)) :
  flat_map (flat_map f) l = flat_map f (concat l).
Proof.
  induction l as [|x l IH]; simpl; [reflexivity|].
  now rewrite flat_map_app, IH.
Qed.

Lemma windows_spec (files : list F) :
  concat (Tools.windows parse files) = map parse files /\
  Forall (fun win => 1 <= length win <= 10) (Tools.windows parse files).
Proof.
  unfold Tools.windows.
  pose proof (load_loop_windows files [] [] (Forall_nil _) (Nat.le_0_l _)) as H.
  destruct (Tools.load_loop parse files [] []) as [result queue].
  destruct H as (Hcat & Hall & Hlen). simpl in Hcat.
  assert (Hall' : Forall (fun win => 1 <= length win <= 10) result).
  { eapply Forall_impl; [|exact Hall]. simpl. intros win Hw. lia. }
  destruct (Nat.ltb_spec 0 (length queue)) as [Hpos|Hzero].
  - split.
    + rewrite concat_app. simpl. now rewrite app_nil_r.
    + apply Forall_app. split; [assumption|]. constructor; [lia | constructor].
  - assert (queue = []) by (destruct queue; [reflexivity | simpl in Hzero; lia]).
    subst queue. rewrite app_nil_r in Hcat. split; assumption.
Qed.
End LoadingFacts.

(** X5.  [getTranslationJsonFromFiles] returns exactly the files whose
    parse fulfils, in the order of the input, whatever their number; the
    windows it awaits are never empty and never hold more than 10 files,
    and together they are all the files. *)
Theorem loading_keeps_the_fulfilled {F J : Type}
  (parse : F -> SafeAsync.settled J) (files : list F) :
  Tools.getTranslationJsonFromFiles parse files = Tools.fulfilled (map parse files) /\
  concat (Tools.windows parse files) = map parse files /\
  Forall (fun win => 1 <= length win <= 10) (Tools.windows parse files).
Proof.
  destruct (windows_spec parse files) as [Hcat Hall].
  split; [|split; assumption].
  unfold Tools.getTranslationJsonFromFiles, Tools.fulfilled.
  now rewrite flat_map_concat, Hcat.
Qed.

(** ** Writing several keys *)

Lemma is_translation_obj_set k v t :
  is_tree v = true -> is_translation t = true ->
  is_translation (obj_set k v t) = true.
Proof.
  unfold is_translation. simpl. rewrite !forallb_forall.
  intros Hv Ht e Hin. destruct (In_obj_set _ _ _ _ Hin) as [->|Hold]; auto.
Qed.

Lemma setJsonValue_tree keys : forall obj v obj',
  is_translation obj = true ->
  TranslationJson.setJsonValue obj keys (JStr v) = Ret obj' ->
  is_translation obj' = true.
Proof.
  induction keys as [|k rest IH]; intros obj v obj' Hobj Hset.
  - simpl in Hset. now injection Hset as <-.
  - destruct rest as [|k2 rest].
    + simpl in Hset. injection Hset as <-. now apply is_translation_obj_set.
    + rewrite setJsonValue_step in Hset.
      destruct (tree_child_cases obj k Hobj)
        as [Hk | [[s Hk] | (child & Hk & Hchild)]]; rewrite Hk in Hset;
        match type of Hset with
        | bind (TranslationJson.setJsonValue ?c _ _) _ = _ =>
            destruct (TranslationJson.setJsonValue c (k2 :: rest) (JStr v))
              as [c'| |] eqn:Hrec; try discriminate
        end;
        simpl in Hset; injection Hset as <-;
        repeat apply is_translation_obj_set; auto;
        eapply IH; try exact Hrec; auto.
Qed.

Lemma setValue_tree t key v t' :
  is_translation t = true ->
  TranslationJson.setValue t key v = Ret t' ->
  is_translation t' = true.
Proof.
  intros Ht. unfold TranslationJson.setValue.
  destruct (TranslationJson.isFlat t).
  - intros [= <-]. now apply is_translation_obj_set.
  - now apply setJsonValue_tree.
Qed.

Lemma fold_setValue_stuck (l : list TranslationKeyValue) (c : outcome record) :
  (forall t, c <> Ret t) ->
  forall t',
    fold_left
      (fun (acc : outcome record) (translated : TranslationKeyValue) =>
         t <- acc ;; TranslationJson.setValue t (key translated) (value translated))
      l c <> Ret t'.
Proof.
  revert c. induction l as [|e l IH]; intros c Hc t'; simpl; [apply Hc|].
  apply IH. intros t. destruct c; simpl; try discriminate. now destruct (Hc a).
Qed.

Lemma setValues_cons t e rest t' :
  Tools.setValues t (e :: rest) = Ret t' ->
  exists t1,
    TranslationJson.setValue t (key e) (value e) = Ret t1 /\
    Tools.setValues t1 rest = Ret t'.
Proof.
  unfold Tools.setValues. simpl. intros H.
  destruct (TranslationJson.setValue t (key e) (value e)) as [t1| |] eqn:Hset.
  - exists t1. split; [reflexivity | exact H].
  - exfalso. revert H. apply fold_setValue_stuck. discriminate.
  - exfalso. revert H. apply fold_setValue_stuck. discriminate.
Qed.

Lemma setValues_returns entries : forall t,
  is_translation t = true ->
  exists t', Tools.setValues t entries = Ret t' /\ is_translation t' = true.
Proof.
  induction entries as [|e entries IH]; intros t Ht.
  - exists t. split; [reflexivity | assumption].
  - destruct (setValue_returns t (key e) (value e) Ht) as [t1 Hset].
    destruct (IH t1 (setValue_tree _ _ _ _ Ht Hset)) as (t' & Hrest & Ht').
    exists t'. split; [|assumption].
    unfold Tools.setValues in *. simpl. now rewrite Hset.
Qed.



(** ** Keys that do not interfere *)

Lemma strip_refl p : strip p p = Some [].
Proof. induction p as [|k p IH]; simpl; [reflexivity | now rewrite String.eqb_refl]. Qed.

Lemma independent_sym k1 k2 : independent k1 k2 = independent k2 k1.
Proof.
  unfold independent.
  destruct (strip (split_dot k1) (split_dot k2)), (strip (split_dot k2) (split_dot k1));
    reflexivity.
Qed.

Lemma independent_paths k1 k2 :
  independent k1 k2 = true ->
  strip (split_dot k1) (split_dot k2) = None /\
  strip (split_dot k2) (split_dot k1) = None.
Proof.
  unfold independent.
  destruct (strip (split_dot k1) (split_dot k2)), (strip (split_dot k2) (split_dot k1));
    try discriminate. auto.
Qed.

Lemma independent_neq k1 k2 : independent k1 k2 = true -> k1 <> k2.
Proof.
  intros H <-. apply independent_paths in H. destruct H as [H _].
  rewrite strip_refl in H. discriminate.
Qed.

Lemma getJsonValue_assoc obj1 obj2 k q :
  assoc k obj1 = assoc k obj2 ->
  TranslationJson.getJsonValue obj1 (k :: q) = TranslationJson.getJsonValue obj2 (k :: q).
Proof.
  intros H. destruct q as [|k2 q].
  - simpl. now rewrite H.
  - now rewrite !getJsonValue_step, H.
Qed.

Lemma getJsonValue_empty q :
  q <> [] -> TranslationJson.getJsonValue [] q = Ret None.
Proof. destruct q as [|a [|b q]]; [contradiction | reflexivity | reflexivity]. Qed.

Lemma setJsonValue_other_key obj k p v obj' k' :
  TranslationJson.setJsonValue obj (k :: p) v = Ret obj' ->
  k' <> k -> assoc k' obj' = assoc k' obj.
Proof.
  intros Hset Hne. destruct p as [|k2 p].
  - simpl in Hset. injection Hset as <-. now apply assoc_obj_set_neq.
  - rewrite setJsonValue_step in Hset.
    destruct (assoc k obj) as [[| | | |items|child]|];
      try discriminate;
      match type of Hset with
      | bind (TranslationJson.setJsonValue ?c _ _) _ = _ =>
          destruct (TranslationJson.setJsonValue c (k2 :: p) v)
            as [c'| |]; try discriminate
      end;
      simpl in Hset; injection Hset as <-;
      now rewrite !assoc_obj_set_neq.
Qed.

Lemma getJsonValue_frame p : forall obj v obj' q,
  TranslationJson.setJsonValue obj p v = Ret obj' ->
  strip p q = None -> strip q p = None ->
  TranslationJson.getJsonValue obj' q = TranslationJson.getJsonValue obj q.
Proof.
  induction p as [|k p IH]; intros obj v obj' q Hset Hpq Hqp; [discriminate|].
  destruct q as [|k' q]; [discriminate|].
  simpl in Hpq, Hqp.
  destruct (String.eqb_spec k k') as [<-|Hne].
  - rewrite String.eqb_refl in Hqp.
    assert (Hp : p <> []) by (intros ->; destruct q; discriminate).
    assert (Hq : q <> []) by (intros ->; destruct p; discriminate).
    destruct p as [|k2 p]; [contradiction|].
    destruct q as [|k3 q]; [contradiction|].
    rewrite setJsonValue_step in Hset. rewrite !getJsonValue_step.
    destruct (assoc k obj) as [[| | | |items|child]|];
      try discriminate;
      match type of Hset with
      | bind (TranslationJson.setJsonValue ?c _ _) _ = _ =>
          destruct (TranslationJson.setJsonValue c (k2 :: p) v)
            as [c'| |] eqn:Hrec; try discriminate
      end;
      simpl in Hset; injection Hset as <-;
      rewrite assoc_obj_set_eq;
      rewrite (IH _ _ _ _ Hrec Hpq Hqp);
      try reflexivity; now apply getJsonValue_empty.
  - apply getJsonValue_assoc.
    eapply setJsonValue_other_key; [exact Hset | congruence].
Qed.



(** The proviso matters: writing ["a"] here makes the file flat, and the
    top-level key ["c.d"], unreadable before, is then found. *)
Lemma flattening_write_uncovers_key :
  TranslationJson.getValue [("a", JObj []); ("c.d", JStr "s")] "c.d" =
    Ret (mkKV "c.d" EmptyString) /\
  TranslationJson.setValue [("a", JObj []); ("c.d", JStr "s")] "a" "v" =
    Ret [("a", JStr "v"); ("c.d", JStr "s")] /\
  TranslationJson.getValue [("a", JStr "v"); ("c.d", JStr "s")] "c.d" =
    Ret (mkKV "c.d" "s").
Proof. repeat split. Qed.

Lemma firmly_bound_getValue t k v :
  firmly_bound t k v -> TranslationJson.getValue t k = Ret (mkKV k v).
Proof.
  unfold firmly_bound, TranslationJson.getValue, leaf.
  destruct (TranslationJson.isFlat t).
  - destruct (assoc k t) as [[| | | | |]|]; try discriminate. now intros [= ->].
  - now intros ->.
Qed.

Lemma setValue_firmly_binds t key v t' :
  TranslationJson.setValue t key v = Ret t' -> firmly_bound t' key v.
Proof.
  intros Hset. unfold firmly_bound, leaf. unfold TranslationJson.setValue in Hset.
  destruct (TranslationJson.isFlat t) eqn:Hflat.
  - injection Hset as <-.
    now rewrite (isFlat_obj_set key v t Hflat), assoc_obj_set_eq.
  - pose proof (getJsonValue_after_set _ _ _ _ (split_dot_nonempty key) Hset) as Hget.
    destruct (TranslationJson.isFlat t') eqn:Hflat'; [|exact Hget].
    destruct (split_dot key) as [|k [|k2 rest]] eqn:Hsplit.
    + now destruct (split_dot_nonempty key).
    + apply split_dot_single in Hsplit. subst k.
      simpl in Hset. injection Hset as <-. now rewrite assoc_obj_set_eq.
    + apply setJsonValue_nested_not_flat in Hset. congruence.
Qed.

Lemma firmly_bound_kept t key v t' k s :
  TranslationJson.setValue t key v = Ret t' ->
  independent key k = true ->
  firmly_bound t k s -> firmly_bound t' k s.
Proof.
  intros Hset Hind Hfirm.
  pose proof (independent_neq _ _ Hind) as Hne.
  apply independent_paths in Hind. destruct Hind as [Hpq Hqp].
  unfold firmly_bound, leaf in *. unfold TranslationJson.setValue in Hset.
  destruct (TranslationJson.isFlat t) eqn:Hflat.
  - injection Hset as <-.
    rewrite (isFlat_obj_set key v t Hflat), assoc_obj_set_neq by congruence.
    exact Hfirm.
  - destruct (TranslationJson.isFlat t') eqn:Hflat'.
    + (* the write made the file flat: the written key is one segment *)
      destruct (split_dot key) as [|kj [|k2 rest]] eqn:Hsplit.
      * now destruct (split_dot_nonempty key).
      * simpl in Hset. injection Hset as <-.
        destruct (split_dot k) as [|q0 [|q1 q]] eqn:Hk.
        -- now destruct (split_dot_nonempty k).
        -- apply split_dot_single in Hk. subst q0.
           simpl in Hqp. destruct (String.eqb_spec k kj) as [->|Hkk]; [discriminate|].
           rewrite assoc_obj_set_neq by assumption.
           simpl in Hfirm.
           destruct (assoc k t) as [[| | | | |]|]; try discriminate.
           now injection Hfirm as ->.
        -- exfalso. simpl in Hpq.
           destruct (String.eqb_spec kj q0) as [->|Hkq]; [discriminate|].
           rewrite getJsonValue_step in Hfirm.
           destruct (assoc q0 t) as [node|] eqn:Hq0; [|discriminate].
           assert (Hq0' : assoc q0 (obj_set kj (JStr v) t) = Some node)
             by (rewrite assoc_obj_set_neq by congruence; exact Hq0).
           destruct (isFlat_assoc _ _ _ Hflat' Hq0') as [s' ->]. discriminate.
      * apply setJsonValue_nested_not_flat in Hset. congruence.
    + now rewrite (getJsonValue_frame _ _ _ _ _ Hset Hpq Hqp).
Qed.

Lemma setValues_firmly_binds entries : forall t t',
  Tools.setValues t entries = Ret t' ->
  pairwise_independent (map key entries) = true ->
  (forall k s, forallb (independent k) (map key entries) = true ->
               firmly_bound t k s -> firmly_bound t' k s) /\
  (forall e, In e entries -> firmly_bound t' (key e) (value e)).
Proof.
  induction entries as [|e entries IH]; intros t t' Hset Hind.
  - unfold Tools.setValues in Hset. simpl in Hset. injection Hset as <-.
    split; [auto | intros e []].
  - destruct (setValues_cons _ _ _ _ Hset) as (t1 & Hfirst & Hrest).
    simpl in Hind. apply andb_prop in Hind. destruct Hind as [He Hind].
    destruct (IH t1 t' Hrest Hind) as [Hkeep Hall].
    split.
    + intros k s Hk Hfirm. simpl in Hk. apply andb_prop in Hk. destruct Hk as [Hke Hk].
      apply Hkeep; [exact Hk|].
      eapply firmly_bound_kept; [exact Hfirst | | exact Hfirm].
      now rewrite independent_sym.
    + intros e' [<-|Hin].
      * apply Hkeep; [exact He|]. now apply setValue_firmly_binds with (t := t).
      * now apply Hall.
Qed.



(** Without independence an earlier entry can be lost: the second write
    replaces the string under ["a"] by a mapping. *)
Lemma dependent_keys_overwrite :
  Tools.setValues [("z", JObj [])] [mkKV "a" "x"; mkKV "a.b" "y"] =
    Ret [("z", JObj []); ("a", JObj [("b", JStr "y")])] /\
  TranslationJson.getValue [("z", JObj []); ("a", JObj [("b", JStr "y")])] "a" =
    Ret (mkKV "a" EmptyString).
Proof. repeat split. Qed.

(** ** Flattened keys and paths *)

Lemma string_app_assoc (a b c : string) : ((a ++ b) ++ c = a ++ (b ++ c))%string.
Proof. induction a as [|x a IH]; simpl; [reflexivity | now rewrite IH]. Qed.

Lemma split_dot_segment k s :
  has_dot k = false -> split_dot (k ++ String "." s) = k :: split_dot s.
Proof.
  induction k as [|c k IH]; simpl; [reflexivity|].
  destruct (Ascii.eqb c "."); [discriminate|]. simpl.
  intros H. now rewrite IH.
Qed.

Lemma split_join_dot path :
  path <> [] -> forallb (fun k => negb (has_dot k)) path = true ->
  split_dot (join_dot path) = path.
Proof.
  induction path as [|k path IH]; intros Hne Hdots; [contradiction|].
  simpl in Hdots. apply andb_prop in Hdots. destruct Hdots as [Hk Hdots].
  apply negb_true_iff in Hk.
  destruct path as [|k2 path].
  - simpl. now apply split_dot_no_dot.
  - change (join_dot (k :: k2 :: path))
      with (k ++ String "." (join_dot (k2 :: path)))%string.
    rewrite split_dot_segment by assumption. f_equal. apply IH; [discriminate | assumption].
Qed.

Lemma join_dot_snoc l key :
  l <> [] -> join_dot (l ++ [key]) = (join_dot l ++ "." ++ key)%string.
Proof.
  induction l as [|p l IH]; intros Hne; [contradiction|].
  destruct l as [|q l].
  - reflexivity.
  - change (join_dot ((p :: q :: l) ++ [key]))
      with (p ++ "." ++ join_dot ((q :: l) ++ [key]))%string.
    rewrite IH by discriminate.
    change (join_dot (p :: q :: l)) with (p ++ "." ++ join_dot (q :: l))%string.
    now rewrite !string_app_assoc.
Qed.

Lemma fullKey_join parentKeys key :
  TranslationJson.fullKey parentKeys key = join_dot (parentKeys ++ [key]).
Proof.
  destruct parentKeys as [|p l]; [reflexivity|].
  unfold TranslationJson.fullKey. now rewrite join_dot_snoc by discriminate.
Qed.

Lemma split_fullKey parentKeys key :
  forallb (fun k => negb (has_dot k)) parentKeys = true -> has_dot key = false ->
  split_dot (TranslationJson.fullKey parentKeys key) = parentKeys ++ [key].
Proof.
  intros Hp Hk. rewrite fullKey_join. apply split_join_dot.
  - destruct parentKeys; discriminate.
  - rewrite forallb_app, Hp. simpl. now rewrite Hk.
Qed.

Lemma fullKey_of_split parentKeys key k :
  split_dot k = parentKeys ++ [key] -> k = TranslationJson.fullKey parentKeys key.
Proof.
  intros H. now rewrite fullKey_join, <- H, join_split_dot.
Qed.

Lemma strip_app parent q : strip parent (parent ++ q) = Some q.
Proof.
  induction parent as [|p parent IH]; simpl; [reflexivity|].
  now rewrite String.eqb_refl.
Qed.

Lemma strip_Some parent : forall path q,
  strip parent path = Some q -> path = parent ++ q.
Proof.
  induction parent as [|p parent IH]; intros path q H; simpl in *.
  - now injection H as ->.
  - destruct path as [|s path]; [discriminate|].
    destruct (String.eqb_spec p s) as [->|]; [|discriminate].
    f_equal. now apply IH.
Qed.

Lemma strip_snoc parent key : forall path,
  strip (parent ++ [key]) path =
  match strip parent path with
  | Some (q0 :: q) => if String.eqb key q0 then Some q else None
  | _ => None
  end.
Proof.
  induction parent as [|p parent IH]; intros path; simpl.
  - destruct path as [|s path]; [reflexivity|]. now destruct (String.eqb key s).
  - destruct path as [|s path]; [reflexivity|].
    destruct (String.eqb p s); [apply IH | reflexivity].
Qed.

Lemma resolve_cons_neq key value rest q0 q :
  q0 <> key -> resolve ((key, value) :: rest) (q0 :: q) = resolve rest (q0 :: q).
Proof.
  intros Hne. destruct q as [|q1 q]; simpl; unfold leaf; simpl;
    destruct (String.eqb_spec q0 key); try contradiction; reflexivity.
Qed.

Lemma resolve_absent key rest q :
  assoc key rest = None -> resolve rest (key :: q) = None.
Proof.
  intros H. destruct q as [|q1 q]; simpl; unfold leaf; now rewrite H.
Qed.

Lemma resolve_cons_str key s rest q :
  resolve ((key, JStr s) :: rest) (key :: q) =
  match q with [] => Some s | _ :: _ => None end.
Proof.
  destruct q as [|q1 q]; simpl; unfold leaf; simpl; now rewrite String.eqb_refl.
Qed.

Lemma resolve_cons_obj key child rest q :
  resolve ((key, JObj child) :: rest) (key :: q) = resolve child q.
Proof.
  destruct q as [|q1 q]; simpl; unfold leaf; simpl; now rewrite String.eqb_refl.
Qed.

Lemma distinct_head key (rest : record) :
  distinct (key :: map fst rest) = true -> assoc key rest = None.
Proof.
  simpl. intros H. apply andb_prop in H. destruct H as [H _].
  apply negb_true_iff in H.
  induction rest as [|[k v] rest IH]; simpl in *; [reflexivity|].
  apply orb_false_iff in H. destruct H as [Hk H].
  rewrite Hk. now apply IH.
Qed.

Lemma app_snoc_neq {A : Type} (l : list A) (x : A) : l <> l ++ [x].
Proof.
  intros H. apply (f_equal (@length A)) in H. rewrite length_app in H. simpl in H. lia.
Qed.

Lemma flattenEntries_lookup parentKeys :
  forallb (fun k => negb (has_dot k)) parentKeys = true ->
  forall entries,
    Forall (fun kv =>
              forall child, snd kv = JObj child ->
              forall result,
              exists m,
                TranslationJson.flattenJson (snd kv) (parentKeys ++ [fst kv]) result = Ret m /\
                forall k, assoc k m = flattened (parentKeys ++ [fst kv]) child result k)
           entries ->
    distinct (map fst entries) = true ->
    forallb (fun kv => negb (has_dot (fst kv))) entries = true ->
    forallb (fun kv => is_tree (snd kv)) entries = true ->
    forall result,
    exists m,
      flattenEntries parentKeys entries result = Ret m /\
      forall k, assoc k m = flattened parentKeys entries result k.
Proof.
  intros Hparent.
  induction entries as [|[key value] rest IH];
    intros Hchildren Hdistinct Hdots Htrees result.
  - exists result. split; [reflexivity|]. intros k. unfold flattened.
    destruct (strip parentKeys (split_dot k)) as [q|]; [|reflexivity].
    now destruct q as [|a [|b q]].
  - inversion Hchildren as [|? ? Hchild Hrest]; subst.
    pose proof (distinct_head key rest Hdistinct) as Hfresh.
    simpl in Hdistinct, Hdots, Htrees.
    apply andb_prop in Hdistinct. destruct Hdistinct as [_ Hdistinct].
    apply andb_prop in Hdots. destruct Hdots as [Hkey Hdots].
    apply negb_true_iff in Hkey.
    apply andb_prop in Htrees. destruct Htrees as [Hvalue Htrees].
    specialize (IH Hrest Hdistinct Hdots Htrees).
    destruct value as [| | |s|items|child]; try discriminate.
    + (* a string leaf *)
      destruct (IH (Map_set (TranslationJson.fullKey parentKeys key) s result))
        as (m & Hm & Hlookup).
      exists m. split; [exact Hm|].
      intros k. rewrite Hlookup. unfold flattened.
      destruct (list_eq_dec string_dec (split_dot k) (parentKeys ++ [key])) as [Hk|Hk].
      * rewrite Hk, strip_app, resolve_cons_str, (resolve_absent _ _ _ Hfresh).
        rewrite (fullKey_of_split _ _ _ Hk). apply assoc_Map_set_eq.
      * assert (Hne : k <> TranslationJson.fullKey parentKeys key).
        { intros ->. apply Hk. now apply split_fullKey. }
        rewrite (assoc_Map_set_neq _ _ _ _ Hne).
        destruct (strip parentKeys (split_dot k)) as [q|] eqn:Hstrip; [|reflexivity].
        destruct q as [|q0 q]; [reflexivity|].
        destruct (String.eqb_spec q0 key) as [->|Hq0].
        -- rewrite resolve_cons_str, (resolve_absent _ _ _ Hfresh).
           destruct q as [|q1 q]; [|reflexivity].
           apply strip_Some in Hstrip. contradiction.
        -- now rewrite (resolve_cons_neq _ _ _ _ _ Hq0).
    + (* a nested mapping *)
      destruct (Hchild child eq_refl result) as (m1 & Hm1 & Hlookup1).
      destruct (IH m1) as (m & Hm & Hlookup).
      exists m. split.
      * cbn [fst snd] in Hm1.
        change (flattenEntries parentKeys ((key, JObj child) :: rest) result)
          with (result' <- TranslationJson.flattenJson (JObj child)
                             (parentKeys ++ [key]) result ;;
                flattenEntries parentKeys rest result').
        rewrite Hm1. exact Hm.
      * intros k. rewrite Hlookup. unfold flattened.
        specialize (Hlookup1 k). unfold flattened in Hlookup1.
        cbn [fst snd] in Hlookup1. rewrite strip_snoc in Hlookup1.
        destruct (strip parentKeys (split_dot k)) as [q|] eqn:Hstrip;
          [|now rewrite Hlookup1].
        destruct q as [|q0 q]; [now rewrite Hlookup1|].
        destruct (String.eqb_spec key q0) as [<-|Hq0].
        -- rewrite resolve_cons_obj, (resolve_absent _ _ _ Hfresh). exact Hlookup1.
        -- rewrite Hlookup1. rewrite resolve_cons_neq by congruence. reflexivity.
Qed.

Lemma flattenJson_lookup j :
  forall entries, j = JObj entries ->
  is_tree j = true -> well_keyed j = true ->
  forall parentKeys result,
    forallb (fun k => negb (has_dot k)) parentKeys = true ->
    exists m,
      TranslationJson.flattenJson j parentKeys result = Ret m /\
      forall k, assoc k m = flattened parentKeys entries result k.
Proof.
  induction j as [| | | | |props IH] using json_ind;
    intros entries Heq Htree Hkeyed parentKeys result Hparent; try discriminate.
  injection Heq as <-. rewrite flattenJson_obj.
  simpl in Htree, Hkeyed. apply andb_prop in Hkeyed. destruct Hkeyed as [Hdistinct Hall].
  apply flattenEntries_lookup; try assumption.
  - rewrite Forall_forall in *. intros [key value] Hin child Hvalue result'.
    simpl in *. subst value.
    rewrite forallb_forall in Htree, Hall.
    specialize (Htree _ Hin). specialize (Hall _ Hin). simpl in Htree, Hall.
    apply andb_prop in Hall. destruct Hall as [Hkey Hchild].
    apply (IH _ Hin child eq_refl Htree Hchild).
    rewrite forallb_app, Hparent. simpl. now rewrite Hkey.
  - rewrite forallb_forall in *. intros kv Hin. specialize (Hall _ Hin).
    apply andb_prop in Hall. tauto.
Qed.

Lemma flatten_lookup t :
  is_translation t = true -> well_keyed (JObj t) = true ->
  exists m,
    TranslationJson.flatten t = Ret m /\
    forall k, assoc k m = resolve t (split_dot k).
Proof.
  intros Ht Hkeyed.
  destruct (flattenJson_lookup (JObj t) t eq_refl Ht Hkeyed [] [] eq_refl)
    as (m & Hm & Hlookup).
  exists m. split; [exact Hm|].
  intros k. rewrite Hlookup. unfold flattened. simpl.
  now destruct (resolve t (split_dot k)).
Qed.

(** X9.  On a translation tree whose objects have distinct keys without
    ['.'], the flattened form binds a key exactly when its dotted path
    resolves through nested mappings to a string leaf, and to that
    leaf. *)
Theorem flatten_binds_resolved_leaves (t : record) :
  is_translation t = true -> well_keyed (JObj t) = true ->
  exists m,
    TranslationJson.flatten t = Ret m /\
    forall k, assoc k m = resolve t (split_dot k).
Proof. apply flatten_lookup. Qed.

Lemma flatten_binds_resolved_leaves_witness :
  is_translation ex_patched = true /\ well_keyed (JObj ex_patched) = true /\
  exists m,
    TranslationJson.flatten ex_patched = Ret m /\
    forall k, assoc k m = resolve ex_patched (split_dot k).
Proof.
  split; [reflexivity|]. split; [reflexivity|].
  apply (flatten_binds_resolved_leaves ex_patched); reflexivity.
Defined.

Lemma has_dot_split k :
  has_dot k = true -> exists a b rest, split_dot k = a :: b :: rest.
Proof.
  induction k as [|c k IH]; simpl; [discriminate|].
  destruct (Ascii.eqb c ".").
  - intros _. pose proof (split_dot_nonempty k) as Hne.
    destruct (split_dot k) as [|b rest]; [contradiction|]. eauto.
  - simpl. intros H. destruct (IH H) as (a & b & rest & ->). eauto.
Qed.

Lemma well_keyed_key t k v :
  well_keyed (JObj t) = true -> assoc k t = Some v -> has_dot k = false.
Proof.
  simpl. intros H Hk. apply andb_prop in H. destruct H as [_ H].
  rewrite forallb_forall in H. apply assoc_In in Hk. specialize (H _ Hk).
  simpl in H. apply andb_prop in H. destruct H as [H _].
  now apply negb_true_iff in H.
Qed.

Lemma flat_leaf_resolve t k :
  TranslationJson.isFlat t = true -> well_keyed (JObj t) = true ->
  leaf t k = resolve t (split_dot k).
Proof.
  intros Hflat Hkeyed. destruct (has_dot k) eqn:Hdot.
  - destruct (has_dot_split k Hdot) as (a & b & rest & ->).
    unfold leaf.
    destruct (assoc k t) as [v|] eqn:Hk.
    + rewrite (well_keyed_key _ _ _ Hkeyed Hk) in Hdot. discriminate.
    + change (resolve t (a :: b :: rest))
        with (match assoc a t with
              | Some (JObj child) => resolve child (b :: rest)
              | _ => None
              end).
      destruct (assoc a t) as [node|] eqn:Ha; [|reflexivity].
      destruct (isFlat_assoc _ _ _ Hflat Ha) as [s ->]. reflexivity.
  - now rewrite (split_dot_no_dot k Hdot).
Qed.

Lemma getValue_resolve t k :
  is_translation t = true -> well_keyed (JObj t) = true ->
  TranslationJson.getValue t k = Ret (mkKV k (or_absent (resolve t (split_dot k)))).
Proof.
  intros Ht Hkeyed. unfold TranslationJson.getValue.
  destruct (TranslationJson.isFlat t) eqn:Hflat.
  - rewrite <- (flat_leaf_resolve t k Hflat Hkeyed). unfold leaf, or_absent.
    now destruct (assoc k t) as [[| | | | |]|].
  - now rewrite (getJsonValue_resolve _ _ Ht).
Qed.



(** A key with a ['.'] in it breaks the agreement: the flattened key
    ["a.b.c"] is not the path to its leaf. *)
Lemma dotted_segment_not_readable :
  TranslationJson.flatten [("a.b", JObj [("c", JStr "x")])] = Ret [("a.b.c", "x")] /\
  TranslationJson.getValue [("a.b", JObj [("c", JStr "x")])] "a.b.c" =
    Ret (mkKV "a.b.c" EmptyString).
Proof. repeat split. Qed.

Lemma resolve_extend p : forall t q v v',
  resolve t p = Some v -> resolve t (p ++ q) = Some v' -> q = [].
Proof.
  induction p as [|a p IH]; intros t q v v' Hp Hpq; [discriminate|].
  destruct p as [|b p].
  - destruct q as [|c q]; [reflexivity|]. exfalso.
    simpl in Hp. unfold leaf in Hp.
    change (resolve t ([a] ++ c :: q))
      with (match assoc a t with
            | Some (JObj child) => resolve child (c :: q)
            | _ => None
            end) in Hpq.
    destruct (assoc a t) as [[| | | | |]|]; discriminate.
  - change (resolve t (a :: b :: p))
      with (match assoc a t with
            | Some (JObj child) => resolve child (b :: p)
            | _ => None
            end) in Hp.
    change (resolve t ((a :: b :: p) ++ q))
      with (match assoc a t with
            | Some (JObj child) => resolve child ((b :: p) ++ q)
            | _ => None
            end) in Hpq.
    destruct (assoc a t) as [[| | | | |child]|]; try discriminate.
    exact (IH child q v v' Hp Hpq).
Qed.

Lemma resolved_keys_independent t k1 k2 v1 v2 :
  resolve t (split_dot k1) = Some v1 ->
  resolve t (split_dot k2) = Some v2 ->
  k1 <> k2 -> independent k1 k2 = true.
Proof.
  intros H1 H2 Hne. unfold independent.
  destruct (strip (split_dot k1) (split_dot k2)) as [q|] eqn:H12.
  - exfalso. apply strip_Some in H12. rewrite H12 in H2.
    rewrite (resolve_extend _ _ _ _ _ H1 H2), app_nil_r in H12.
    apply Hne. now rewrite <- (join_split_dot k1), <- (join_split_dot k2), H12.
  - destruct (strip (split_dot k2) (split_dot k1)) as [q|] eqn:H21; [|reflexivity].
    exfalso. apply strip_Some in H21. rewrite H21 in H1.
    rewrite (resolve_extend _ _ _ _ _ H2 H1), app_nil_r in H21.
    apply Hne. now rewrite <- (join_split_dot k1), <- (join_split_dot k2), H21.
Qed.

Lemma pairwise_independent_resolved t (m : Map) :
  NoDup (map fst m) ->
  (forall k, In k (map fst m) -> exists v, resolve t (split_dot k) = Some v) ->
  pairwise_independent (map fst m) = true.
Proof.
  induction m as [|[k v] m IH]; intros Hnd Hres; [reflexivity|].
  simpl in *. inversion Hnd as [|? ? Hnotin Hnd']; subst.
  apply andb_true_intro. split.
  - apply forallb_forall. intros k' Hin.
    destruct (Hres k (or_introl eq_refl)) as [v1 H1].
    destruct (Hres k' (or_intror Hin)) as [v2 H2].
    apply (resolved_keys_independent t k k' v1 v2 H1 H2). now intros ->.
  - apply IH; auto.
Qed.

Lemma flatten_keys_independent t m :
  is_translation t = true -> well_keyed (JObj t) = true ->
  TranslationJson.flatten t = Ret m ->
  pairwise_independent (map fst m) = true.
Proof.
  intros Ht Hkeyed Hm.
  destruct (flatten_tree t Ht) as (m' & Hm' & Hnd).
  destruct (flatten_lookup t Ht Hkeyed) as (m'' & Hm'' & Hlookup).
  assert (m' = m) by congruence. assert (m'' = m) by congruence. subst m' m''.
  apply (pairwise_independent_resolved t); [exact Hnd|].
  intros k Hin. apply has_true_iff in Hin. unfold has in Hin.
  rewrite <- Hlookup. destruct (assoc k m) as [v|]; [eauto | discriminate].
Qed.



(** ** More on the diff *)

Lemma filter_nil_iff {A : Type} (p : A -> bool) (l : list A) :
  filter p l = [] <-> forall x, In x l -> p x = false.
Proof.
  induction l as [|a l IH]; simpl.
  - split; [intros _ x [] | reflexivity].
  - destruct (p a) eqn:Hpa.
    + split; [discriminate|]. intros H. specialize (H a (or_introl eq_refl)). congruence.
    + rewrite IH. split.
      * intros H x [<-|Hin]; auto.
      * intros H x Hin. apply H. now right.
Qed.

Lemma diff_nil_iff (selfMap otherMap : Map) :
  NoDup (map fst selfMap) -> NoDup (map fst otherMap) ->
  (map entry (filter (absent_or_differs otherMap) selfMap) ++
   map entry (filter (absent_from selfMap) otherMap) = [] <->
   forall k, assoc k selfMap = assoc k otherMap).
Proof.
  intros Hs Ho. split.
  - intros H. apply app_eq_nil in H. destruct H as [H1 H2].
    apply map_eq_nil in H1. apply map_eq_nil in H2.
    rewrite filter_nil_iff in H1, H2.
    intros k. destruct (assoc k selfMap) as [v|] eqn:Hk.
    + specialize (H1 _ (assoc_In _ _ _ Hk)). unfold absent_or_differs in H1.
      simpl in H1. destruct (assoc k otherMap) as [v'|]; [|discriminate].
      apply negb_false_iff, String.eqb_eq in H1. now subst.
    + destruct (assoc k otherMap) as [v'|] eqn:Hk'; [|reflexivity].
      specialize (H2 _ (assoc_In _ _ _ Hk')). unfold absent_from, has in H2.
      simpl in H2. rewrite Hk in H2. discriminate.
  - intros H.
    assert (H1 : filter (absent_or_differs otherMap) selfMap = []).
    { apply filter_nil_iff. intros [k v] Hin. unfold absent_or_differs. simpl.
      rewrite <- H, (In_assoc _ _ _ Hs Hin). now rewrite String.eqb_refl. }
    assert (H2 : filter (absent_from selfMap) otherMap = []).
    { apply filter_nil_iff. intros [k v] Hin. unfold absent_from, has. simpl.
      now rewrite H, (In_assoc _ _ _ Ho Hin). }
    now rewrite H1, H2.
Qed.

(** X12.  [diff] is empty exactly when the two files flatten to the same
    bindings: same keys, same strings (a key only one of them has is
    always listed).  In particular the diff of a translation tree with
    itself is empty. *)
Theorem diff_empty_iff_same_bindings :
  (forall base other : record,
      is_translation base = true -> is_translation other = true ->
      exists selfMap otherMap,
        TranslationJson.flatten base = Ret selfMap /\
        TranslationJson.flatten other = Ret otherMap /\
        (TranslationJson.diff base other = Ret [] <->
         forall k, assoc k selfMap = assoc k otherMap)) /\
  (forall t : record,
      is_translation t = true -> TranslationJson.diff t t = Ret []).
Proof.
  assert (Hpair : forall base other : record,
             is_translation base = true -> is_translation other = true ->
             exists selfMap otherMap,
               TranslationJson.flatten base = Ret selfMap /\
               TranslationJson.flatten other = Ret otherMap /\
               (TranslationJson.diff base other = Ret [] <->
                forall k, assoc k selfMap = assoc k otherMap)).
  { intros base other Hb Ho.
    destruct (flatten_tree base Hb) as (selfMap & Hs & Hnds).
    destruct (flatten_tree other Ho) as (otherMap & Hom & Hndo).
    exists selfMap, otherMap. split; [exact Hs|]. split; [exact Hom|].
    rewrite (diff_of_flattened _ _ _ _ Hs Hom).
    rewrite <- (diff_nil_iff selfMap otherMap Hnds Hndo).
    split; [now intros [= ->] | now intros ->]. }
  split; [exact Hpair|].
  intros t Ht. destruct (Hpair t t Ht Ht) as (m1 & m2 & H1 & H2 & Hiff).
  apply Hiff. intros k. congruence.
Qed.

Lemma diff_empty_iff_same_bindings_witness :
  is_translation ex_base = true /\
  TranslationJson.diff ex_base ex_base = Ret [].
Proof.
  split; [reflexivity|].
  apply (proj2 diff_empty_iff_same_bindings ex_base). reflexivity.
Defined.

Lemma NoDup_keys_filter {A : Type} (p : string * A -> bool) (l : list (string * A)) :
  NoDup (map fst l) -> NoDup (map fst (filter p l)).
Proof.
  induction l as [|a l IH]; simpl; intros Hnd; [constructor|].
  inversion Hnd as [|? ? Hnotin Hnd']; subst.
  destruct (p a); simpl; [|auto].
  constructor; [|auto].
  intros Hin. apply Hnotin. apply in_map_iff in Hin.
  destruct Hin as (x & Hx & Hin). apply filter_In in Hin.
  apply in_map_iff. exists x. tauto.
Qed.

Lemma keys_of_entries (l : Map) : map key (map entry l) = map fst l.
Proof. rewrite map_map. reflexivity. Qed.

(** X13.  [diff] never lists a key twice: the keys of the entries it
    returns for two translation trees are pairwise different. *)
Theorem diff_keys_are_distinct (base other : record) :
  is_translation base = true -> is_translation other = true ->
  exists d, TranslationJson.diff base other = Ret d /\ NoDup (map key d).
Proof.
  intros Hb Ho.
  destruct (flatten_tree base Hb) as (selfMap & Hs & Hnds).
  destruct (flatten_tree other Ho) as (otherMap & Hom & Hndo).
  eexists. split; [exact (diff_of_flattened _ _ _ _ Hs Hom)|].
  rewrite map_app, !keys_of_entries. apply NoDup_app.
  - now apply NoDup_keys_filter.
  - now apply NoDup_keys_filter.
  - intros k Hin1 Hin2.
    apply in_map_iff in Hin1. destruct Hin1 as ([k1 v1] & <- & Hin1).
    apply in_map_iff in Hin2. destruct Hin2 as ([k2 v2] & Hk & Hin2).
    simpl in Hk. subst k2.
    apply filter_In in Hin1. destruct Hin1 as [Hin1 _].
    apply filter_In in Hin2. destruct Hin2 as [_ Habs].
    unfold absent_from in Habs. simpl in Habs. apply negb_true_iff in Habs.
    apply has_false_iff in Habs. apply Habs.
    apply in_map_iff. exists (k1, v1). auto.
Qed.

Lemma diff_keys_are_distinct_witness :
  is_translation ex_base = true /\ is_translation ex_patched = true /\
  exists d, TranslationJson.diff ex_base ex_patched = Ret d /\ NoDup (map key d).
Proof.
  split; [reflexivity|]. split; [reflexivity|].
  apply (diff_keys_are_distinct ex_base ex_patched); reflexivity.
Defined.

(** ** Flattening any file *)

Lemma flattenEntries_NoDup parentKeys entries :
  Forall (fun kv =>
            forall pk result m,
              TranslationJson.flattenJson (snd kv) pk result = Ret m ->
              NoDup (map fst result) -> NoDup (map fst m)) entries ->
  forall result m,
    flattenEntries parentKeys entries result = Ret m ->
    NoDup (map fst result) -> NoDup (map fst m).
Proof.
  induction entries as [|[key value] rest IH]; intros Hall result m Hm Hnd.
  - simpl in Hm. now injection Hm as <-.
  - inversion Hall as [|? ? Hvalue Hrest]; subst. simpl in Hvalue.
    destruct value as [| | |s|items|child];
      try (exact (IH Hrest _ _ Hm Hnd)).
    + change (flattenEntries parentKeys ((key, JNull) :: rest) result)
        with (result' <- TranslationJson.flattenJson JNull (parentKeys ++ [key]) result ;;
              flattenEntries parentKeys rest result') in Hm.
      simpl in Hm. discriminate.
    + apply (IH Hrest _ _ Hm). now apply NoDup_Map_set.
    + change (flattenEntries parentKeys ((key, JObj child) :: rest) result)
        with (result' <- TranslationJson.flattenJson (JObj child)
                           (parentKeys ++ [key]) result ;;
              flattenEntries parentKeys rest result') in Hm.
      destruct (TranslationJson.flattenJson (JObj child) (parentKeys ++ [key]) result)
        as [m1| |] eqn:Hm1; try discriminate.
      simpl in Hm. apply (IH Hrest _ _ Hm). exact (Hvalue _ _ _ Hm1 Hnd).
Qed.

Lemma flattenJson_NoDup j : forall pk result m,
  TranslationJson.flattenJson j pk result = Ret m ->
  NoDup (map fst result) -> NoDup (map fst m).
Proof.
  induction j as [| | | | |props IH] using json_ind;
    intros pk result m Hm Hnd; try discriminate.
  rewrite flattenJson_obj in Hm. eapply flattenEntries_NoDup; eauto.
Qed.

(** X14.  Whatever the file holds (numbers, arrays, keys with dots that
    collide), when [flatten] returns, no key occurs twice in the
    flattened form. *)
Theorem flatten_keys_are_distinct (t : record) (m : Map) :
  TranslationJson.flatten t = Ret m -> NoDup (map fst m).
Proof.
  intros Hm. apply (flattenJson_NoDup _ _ _ _ Hm). constructor.
Qed.

Lemma flatten_keys_are_distinct_witness :
  TranslationJson.flatten [("a.b", JStr "x"); ("n", JNum 1); ("a", JObj [("b", JStr "y")])] =
    Ret [("a.b", "y")] /\
  NoDup (map fst [("a.b", "y")]).
Proof.
  split; [reflexivity|].
  apply (flatten_keys_are_distinct
           [("a.b", JStr "x"); ("n", JNum 1); ("a", JObj [("b", JStr "y")])]).
  reflexivity.
Defined.

(** ** Translating in batches *)

Lemma processTranslations_answered remote language_name batch w m :
  remote (length w) (LLMTranslation.request_for language_name batch) =
    LLMTranslation.Translations m ->
  LLMTranslation.processTranslations remote language_name batch w =
    (Ret (Some (LLMTranslation.mapi
                  (fun t i =>
                     mkKV (key t)
                       (match assoc (String_of_nat i) m with
                        | Some s => s
                        | None => value t
                        end))
                  batch)),
     w ++ [LLMTranslation.request_for language_name batch]).
Proof.
  intros Hreply.
  unfold LLMTranslation.processTranslations, LLMTranslation.bindM,
    LLMTranslation.sendLLMRequest.
  unfold LLMTranslation.request_for in Hreply. cbv zeta. rewrite Hreply.
  reflexivity.
Qed.

Lemma processTranslations_fails remote language_name batch w e :
  failure (remote (length w) (LLMTranslation.request_for language_name batch)) = Some e ->
  LLMTranslation.processTranslations remote language_name batch w =
    (Throw e, w ++ [LLMTranslation.request_for language_name batch]).
Proof.
  intros Hreply.
  unfold LLMTranslation.processTranslations, LLMTranslation.bindM,
    LLMTranslation.sendLLMRequest.
  unfold LLMTranslation.request_for in Hreply. cbv zeta.
  destruct (remote _ _); simpl in Hreply; try discriminate;
    injection Hreply as <-; reflexivity.
Qed.

Lemma processTranslations_passes remote language_name batch w :
  failure (remote (length w) (LLMTranslation.request_for language_name batch)) = None ->
  exists r,
    LLMTranslation.processTranslations remote language_name batch w =
      (Ret r, w ++ [LLMTranslation.request_for language_name batch]).
Proof.
  intros Hreply.
  unfold LLMTranslation.processTranslations, LLMTranslation.bindM,
    LLMTranslation.sendLLMRequest.
  unfold LLMTranslation.request_for in Hreply. cbv zeta.
  destruct (remote _ _); simpl in Hreply; try discriminate; eexists; reflexivity.
Qed.

Lemma translate_loop_step remote language_name batch rest result w :
  LLMTranslation.translate_loop remote language_name (batch :: rest) result w =
  match LLMTranslation.processTranslations remote language_name batch w with
  | (Ret batchResult, w') =>
      LLMTranslation.translate_loop remote language_name rest
        (match batchResult with
         | Some r => result ++ r
         | None => result
         end) w'
  | (Throw e, w') => (Throw e, w')
  | (Unmodelled, w') => (Unmodelled, w')
  end.
Proof. reflexivity. Qed.

Lemma keys_mapi_from {B : Type} (g : TranslationKeyValue -> nat -> string) l :
  forall index,
    map key (LLMTranslation.mapi_from (fun t i => mkKV (key t) (g t i)) index l) =
    map key l.
Proof.
  induction l as [|x l IH]; intros index; [reflexivity|].
  simpl. now rewrite IH.
Qed.

Lemma translate_loop_answered remote language_name
  (Hanswers : forall i req, exists m, remote i req = LLMTranslation.Translations m)
  bs : forall result w,
  exists out reqs,
    LLMTranslation.translate_loop remote language_name bs result w =
      (Ret (result ++ out), w ++ reqs) /\
    map key out = map key (concat bs) /\
    length reqs = length bs.
Proof.
  induction bs as [|batch rest IH]; intros result w.
  - exists [], []. simpl. unfold LLMTranslation.ret. now rewrite !app_nil_r.
  - destruct (Hanswers (length w) (LLMTranslation.request_for language_name batch))
      as [m Hm].
    rewrite translate_loop_step, (processTranslations_answered _ _ _ _ _ Hm).
    match goal with
    | |- context [LLMTranslation.translate_loop _ _ rest (result ++ ?r) ?w'] =>
        destruct (IH (result ++ r) w') as (out & reqs & Hloop & Hkeys & Hlen);
        exists (r ++ out), (LLMTranslation.request_for language_name batch :: reqs)
    end.
    rewrite Hloop, <- !app_assoc. split; [reflexivity|]. split.
    + rewrite map_app, Hkeys. simpl. rewrite map_app. f_equal.
      unfold LLMTranslation.mapi.
      exact (keys_mapi_from (B := unit) _ batch 0).
    + simpl. now rewrite Hlen.
Qed.

Lemma batches_positive {T : Type} (items : list T) n :
  0 < n ->
  LLMTranslation.batches items n =
    Ret (map (chunk items n) (seq 0 (LLMTranslation.ceil_div (length items) n))) /\
  concat (map (chunk items n) (seq 0 (LLMTranslation.ceil_div (length items) n))) = items.
Proof.
  intros Hn. split.
  - destruct n as [|n]; [lia | reflexivity].
  - rewrite concat_chunks. apply firstn_all2.
    now apply ceil_div_bounds.
Qed.

Lemma translate_answered remote language_name translations batchSize w :
  0 < batchSize ->
  (forall i req, exists m, remote i req = LLMTranslation.Translations m) ->
  exists out reqs,
    LLMTranslation.translate remote language_name translations batchSize w =
      (Ret out, w ++ reqs) /\
    map key out = map key translations /\
    length reqs = LLMTranslation.ceil_div (length translations) batchSize.
Proof.
  intros Hn Hanswers.
  destruct (batches_positive translations batchSize Hn) as [Hbs Hconcat].
  unfold LLMTranslation.translate. rewrite Hbs.
  destruct (translate_loop_answered remote language_name Hanswers
              (map (chunk translations batchSize)
                 (seq 0 (LLMTranslation.ceil_div (length translations) batchSize)))
              [] w) as (out & reqs & Hloop & Hkeys & Hlen).
  exists out, reqs. split; [exact Hloop|]. split.
  - now rewrite Hkeys, Hconcat.
  - now rewrite Hlen, length_map, length_seq.
Qed.

(** X15.  When the service answers every request with a map of
    translations, [translate] with a positive batch size returns one
    entry per entry given, with the same keys in the same order, and has
    sent exactly ceil(length / batchSize) requests. *)
Theorem translate_keeps_keys remote language_name translations batchSize w :
  0 < batchSize ->
  (forall i req, exists m, remote i req = LLMTranslation.Translations m) ->
  exists out reqs,
    LLMTranslation.translate remote language_name translations batchSize w =
      (Ret out, w ++ reqs) /\
    map key out = map key translations /\
    length reqs = LLMTranslation.ceil_div (length translations) batchSize.
Proof. apply translate_answered. Qed.

Lemma translate_keeps_keys_witness :
  exists out reqs,
    LLMTranslation.translate
      (fun _ _ => LLMTranslation.Translations [("0", "Bonjour")]) "French"
      [mkKV "a" "Hello"; mkKV "b" "World"; mkKV "c.d" "Bye"] 2 [] =
      (Ret out, [] ++ reqs) /\
    map key out = ["a"; "b"; "c.d"] /\
    length reqs = 2.
Proof.
  apply (translate_keeps_keys
           (fun _ _ => LLMTranslation.Translations [("0", "Bonjour")]) "French"
           [mkKV "a" "Hello"; mkKV "b" "World"; mkKV "c.d" "Bye"] 2 []).
  - lia.
  - intros i req. eexists. reflexivity.
Defined.

Lemma translate_loop_stops remote language_name e bad rest good : forall result w,
  (forall i req, i < length w + length good -> failure (remote i req) = None) ->
  failure (remote (length w + length good)
             (LLMTranslation.request_for language_name bad)) = Some e ->
  exists reqs,
    LLMTranslation.translate_loop remote language_name (good ++ bad :: rest) result w =
      (Throw e, w ++ reqs ++ [LLMTranslation.request_for language_name bad]) /\
    length reqs = length good.
Proof.
  induction good as [|batch good IH]; intros result w Hgood Hbad.
  - exists []. simpl app. rewrite translate_loop_step.
    rewrite (processTranslations_fails _ _ _ _ e); [now split|].
    simpl in Hbad. now rewrite Nat.add_0_r in Hbad.
  - simpl app. rewrite translate_loop_step.
    destruct (processTranslations_passes remote language_name batch w) as [r Hr].
    { apply Hgood. simpl. lia. }
    rewrite Hr.
    match goal with
    | |- context [LLMTranslation.translate_loop _ _ _ ?res ?w'] =>
        destruct (IH res w') as (reqs & Hloop & Hlen)
    end.
    + intros i req Hi. apply Hgood. rewrite length_app in Hi. simpl in *. lia.
    + rewrite length_app. simpl length.
      replace (length w + 1 + length good) with (length w + S (length good)) by lia.
      exact Hbad.
    + exists (LLMTranslation.request_for language_name batch :: reqs).
      rewrite Hloop, <- app_assoc. simpl. now rewrite Hlen.
Qed.

(** X16.  [translate] stops at the first batch whose request fails (the
    call is rejected, the reply has no content, or it is not JSON): the
    error of that batch is thrown, the translations of the batches
    before it are lost, and no later batch is sent. *)
Theorem translate_stops_at_first_failure
  remote language_name translations batchSize good bad rest e w :
  LLMTranslation.batches translations batchSize = Ret (good ++ bad :: rest) ->
  (forall i req, i < length w + length good -> failure (remote i req) = None) ->
  failure (remote (length w + length good)
             (LLMTranslation.request_for language_name bad)) = Some e ->
  exists reqs,
    LLMTranslation.translate remote language_name translations batchSize w =
      (Throw e, w ++ reqs ++ [LLMTranslation.request_for language_name bad]) /\
    length reqs = length good.
Proof.
  intros Hbs Hgood Hbad. unfold LLMTranslation.translate. rewrite Hbs.
  now apply translate_loop_stops.
Qed.

Lemma translate_stops_at_first_failure_witness :
  exists reqs,
    LLMTranslation.translate
      (fun n _ => match n with
                  | 1 => LLMTranslation.Malformed
                  | _ => LLMTranslation.Translations [("0", "Bonjour")]
                  end)
      "French" [mkKV "a" "Hello"; mkKV "b" "World"; mkKV "c" "Bye"] 1 [] =
      (Throw SyntaxError,
       [] ++ reqs ++ [LLMTranslation.request_for "French" [mkKV "b" "World"]]) /\
    length reqs = 1.
Proof.
  apply (translate_stops_at_first_failure
           (fun n _ => match n with
                       | 1 => LLMTranslation.Malformed
                       | _ => LLMTranslation.Translations [("0", "Bonjour")]
                       end)
           "French" [mkKV "a" "Hello"; mkKV "b" "World"; mkKV "c" "Bye"] 1
           [[mkKV "a" "Hello"]] [mkKV "b" "World"] [[mkKV "c" "Bye"]] SyntaxError []).
  - reflexivity.
  - intros i req Hi. simpl in Hi. assert (i = 0) as -> by lia. reflexivity.
  - reflexivity.
Defined.



(** ** The earlier version of the tree operations *)

Lemma flattenObject_obj entries keys result :
  Earlier.flattenObject (JObj entries) keys result =
  Earlier.flattenObjectEntries keys entries result.
Proof. reflexivity. Qed.

Lemma same_bindings_set plain m k s :
  same_bindings plain m ->
  same_bindings (obj_set k (JStr s) plain) (Map_set k s m).
Proof.
  intros Hsame k'. destruct (String.eqb_spec k' k) as [->|Hne].
  - now rewrite assoc_obj_set_eq, assoc_Map_set_eq.
  - now rewrite assoc_obj_set_neq, assoc_Map_set_neq.
Qed.

Lemma flattenObjectEntries_agrees parentKeys entries :
  Forall (fun kv =>
            forall pk result m plain,
              TranslationJson.flattenJson (snd kv) pk result = Ret m ->
              same_bindings plain result ->
              exists plain',
                Earlier.flattenObject (snd kv) pk plain = Ret plain' /\
                same_bindings plain' m) entries ->
  forall result m plain,
    flattenEntries parentKeys entries result = Ret m ->
    same_bindings plain result ->
    exists plain',
      Earlier.flattenObjectEntries parentKeys entries plain = Ret plain' /\
      same_bindings plain' m.
Proof.
  induction entries as [|[key value] rest IH]; intros Hall result m plain Hm Hsame.
  - simpl in Hm. injection Hm as <-. now exists plain.
  - inversion Hall as [|? ? Hvalue Hrest]; subst. cbn [snd] in Hvalue.
    destruct value as [| | |s|items|child];
      try (exact (IH Hrest _ _ _ Hm Hsame)).
    + change (flattenEntries parentKeys ((key, JNull) :: rest) result)
        with (result' <- TranslationJson.flattenJson JNull (parentKeys ++ [key]) result ;;
              flattenEntries parentKeys rest result') in Hm.
      simpl in Hm. discriminate.
    + change (flattenEntries parentKeys ((key, JStr s) :: rest) result)
        with (flattenEntries parentKeys rest
                (Map_set (TranslationJson.fullKey parentKeys key) s result)) in Hm.
      change (Earlier.flattenObjectEntries parentKeys ((key, JStr s) :: rest) plain)
        with (Earlier.flattenObjectEntries parentKeys rest
                (obj_set (join_dot (parentKeys ++ [key])) (JStr s) plain)).
      rewrite <- fullKey_join. apply (IH Hrest _ _ _ Hm).
      now apply same_bindings_set.
    + change (flattenEntries parentKeys ((key, JObj child) :: rest) result)
        with (result' <- TranslationJson.flattenJson (JObj child)
                           (parentKeys ++ [key]) result ;;
              flattenEntries parentKeys rest result') in Hm.
      destruct (TranslationJson.flattenJson (JObj child) (parentKeys ++ [key]) result)
        as [m1| |] eqn:Hm1; try discriminate.
      simpl in Hm.
      destruct (Hvalue _ _ _ _ Hm1 Hsame) as (plain1 & Hplain1 & Hsame1).
      change (Earlier.flattenObjectEntries parentKeys ((key, JObj child) :: rest) plain)
        with (result' <- Earlier.flattenObject (JObj child) (parentKeys ++ [key]) plain ;;
              Earlier.flattenObjectEntries parentKeys rest result').
      rewrite Hplain1. simpl. exact (IH Hrest _ _ _ Hm Hsame1).
Qed.

Lemma flattenObject_agrees j : forall pk result m plain,
  TranslationJson.flattenJson j pk result = Ret m ->
  same_bindings plain result ->
  exists plain',
    Earlier.flattenObject j pk plain = Ret plain' /\ same_bindings plain' m.
Proof.
  induction j as [| | | | |props IH] using json_ind;
    intros pk result m plain Hm Hsame; try discriminate.
  rewrite flattenJson_obj in Hm. rewrite flattenObject_obj.
  eapply flattenObjectEntries_agrees; eauto.
Qed.



(** The order is not always the same: a plain object lists keys that are
    array indices first, a Map keeps the order of insertion. *)
Remark earlier_flatten_order :
  TranslationJson.flatten [("b", JStr "x"); ("1", JStr "y")] = Ret [("b", "x"); ("1", "y")] /\
  Earlier.flatten [("b", JStr "x"); ("1", JStr "y")] = Ret [("1", JStr "y"); ("b", JStr "x")].
Proof. split; reflexivity. Qed.

Lemma resolve_step obj k k2 rest :
  Earlier.resolve obj (k :: k2 :: rest) =
  match assoc k obj with
  | Some (JObj child) => Earlier.resolve child (k2 :: rest)
  | Some (JArr items) => Earlier.resolve (array_props items) (k2 :: rest)
  | Some JNull => Throw TypeError
  | _ => Ret None
  end.
Proof. reflexivity. Qed.

Lemma getJsonValue_earlier_resolve keys : forall obj,
  TranslationJson.getJsonValue obj keys =
  (node <- Earlier.resolve obj keys ;; Ret (string_node node)).
Proof.
  induction keys as [|k rest IH]; intros obj; [reflexivity|].
  destruct rest as [|k2 rest].
  - simpl. now destruct (assoc k obj) as [[| | | | |]|].
  - rewrite getJsonValue_step, resolve_step.
    destruct (assoc k obj) as [[| | | | |]|]; try reflexivity; apply IH.
Qed.

(** X19.  The two versions of [getValue] agree on every file that is not
    flat, and on every key without a dot: the current one returns the
    string the earlier one resolves to (the empty string when that is
    not a string), and throws when the earlier one throws. *)
Theorem getValue_variants_agree (t : record) (k : string) :
  TranslationJson.isFlat t = false \/ has_dot k = false ->
  TranslationJson.getValue t k =
  (node <- Earlier.getValue t k ;; Ret (mkKV k (or_absent (string_node node)))).
Proof.
  intros Hcase. unfold TranslationJson.getValue, Earlier.getValue.
  destruct (TranslationJson.isFlat t) eqn:Hflat.
  - destruct Hcase as [Hcase|Hdot]; [discriminate|].
    rewrite (split_dot_no_dot _ Hdot). simpl.
    now destruct (assoc k t) as [[| | | | |]|].
  - rewrite getJsonValue_earlier_resolve.
    destruct (Earlier.resolve t (split_dot k)) as [[[| | | | |]|]| |]; reflexivity.
Qed.

Lemma getValue_variants_agree_witness :
  TranslationJson.getValue ex_base "b.c" =
  (node <- Earlier.getValue ex_base "b.c" ;;
   Ret (mkKV "b.c" (or_absent (string_node node)))).
Proof.
  apply (getValue_variants_agree ex_base "b.c"). left. reflexivity.
Defined.

(** On a flat file they differ under a key with a dot. *)
Remark getValue_variants_differ :
  TranslationJson.getValue [("a.b", JStr "x")] "a.b" = Ret (mkKV "a.b" "x") /\
  Earlier.getValue [("a.b", JStr "x")] "a.b" = Ret None.
Proof. split; reflexivity. Qed.

(** ** The text sent to the service *)

Lemma string_app_nil_r (s : string) : (s ++ EmptyString)%string = s.
Proof. induction s as [|c s IH]; simpl; [reflexivity | now rewrite IH]. Qed.

Lemma no_dollar_app (a b : string) :
  no_dollar (a ++ b)%string = no_dollar a && no_dollar b.
Proof.
  induction a as [|c a IH]; simpl; [reflexivity|].
  rewrite IH. now rewrite andb_assoc.
Qed.

Lemma no_dollar_uint (d : Decimal.uint) : no_dollar (NilEmpty.string_of_uint d) = true.
Proof. induction d; simpl; auto. Qed.

Lemma no_dollar_String_of_nat (i : nat) : no_dollar (String_of_nat i) = true.
Proof. apply no_dollar_uint. Qed.

Lemma generateUserPrompt_plain (input : string) :
  no_dollar input = true -> LLMTranslation.generateUserPrompt input = input.
Proof.
  intros Hplain.
  unfold LLMTranslation.generateUserPrompt, LLMTranslation.LLM_INPUT_PROMPT, replace.
  assert (Hidx : String.index 0 "{:input}" "{:input}" = Some 0) by reflexivity.
  rewrite Hidx. cbv zeta.
  change (String.substring 0 0 "{:input}") with EmptyString.
  change (String.substring (0 + String.length "{:input}")
            (String.length "{:input}" - (0 + String.length "{:input}")) "{:input}")
    with EmptyString.
  rewrite GetSubstitution_no_dollar by assumption.
  simpl. apply string_app_nil_r.
Qed.

Lemma no_dollar_lines translations : forall index,
  forallb (fun t => no_dollar (value t)) translations = true ->
  no_dollar
    (LLMTranslation.join_nl
       (LLMTranslation.mapi_from
          (fun translation index =>
             ("[" ++ String_of_nat index ++ "] " ++ LLMTranslation.dq ++
              value translation ++ LLMTranslation.dq)%string)
          index translations)) = true.
Proof.
  induction translations as [|t rest IH]; intros index Hplain; [reflexivity|].
  simpl in Hplain. apply andb_true_iff in Hplain. destruct Hplain as [Ht Hrest].
  assert (Hline : no_dollar
                    ("[" ++ String_of_nat index ++ "] " ++ LLMTranslation.dq ++
                     value t ++ LLMTranslation.dq)%string = true).
  { rewrite !no_dollar_app, no_dollar_String_of_nat, Ht. reflexivity. }
  specialize (IH (S index) Hrest).
  destruct rest as [|t2 rest]; [exact Hline|].
  change (LLMTranslation.join_nl
            (LLMTranslation.mapi_from
               (fun translation index0 =>
                  ("[" ++ String_of_nat index0 ++ "] " ++ LLMTranslation.dq ++
                   value translation ++ LLMTranslation.dq)%string)
               index (t :: t2 :: rest)))
    with (("[" ++ String_of_nat index ++ "] " ++ LLMTranslation.dq ++
           value t ++ LLMTranslation.dq) ++ LLMTranslation.nl ++
          LLMTranslation.join_nl
            (LLMTranslation.mapi_from
               (fun translation index0 =>
                  ("[" ++ String_of_nat index0 ++ "] " ++ LLMTranslation.dq ++
                   value translation ++ LLMTranslation.dq)%string)
               (S index) (t2 :: rest)))%string.
  rewrite no_dollar_app, Hline, no_dollar_app, IH. reflexivity.
Qed.

(** X20.  When no value of a batch contains a dollar sign, the request
    for the batch carries the system prompt, a line break, and the
    numbered listing of the values exactly as
    [generateTranslationFormattedInput] wrote it: the substitution of
    [generateUserPrompt] changes nothing. *)
Theorem request_carries_the_listing (language_name : string)
  (batch : list TranslationKeyValue) :
  forallb (fun t => no_dollar (value t)) batch = true ->
  LLMTranslation.content (LLMTranslation.request_for language_name batch) =
  (LLMTranslation.generateSystemPrompt language_name ++ LLMTranslation.nl ++
   LLMTranslation.generateTranslationFormattedInput batch)%string.
Proof.
  intros Hplain. unfold LLMTranslation.request_for. cbn [LLMTranslation.content].
  rewrite generateUserPrompt_plain; [reflexivity|].
  unfold LLMTranslation.generateTranslationFormattedInput, LLMTranslation.mapi.
  now apply no_dollar_lines.
Qed.

Lemma request_carries_the_listing_witness :
  LLMTranslation.content (LLMTranslation.request_for "French" two_entries) =
  (LLMTranslation.generateSystemPrompt "French" ++ LLMTranslation.nl ++
   LLMTranslation.generateTranslationFormattedInput two_entries)%string.
Proof.
  apply (request_carries_the_listing "French" two_entries). reflexivity.
Defined.

(** A value with a dollar pattern does not arrive as written. *)
Remark dollars_are_rewritten :
  LLMTranslation.generateUserPrompt "Only $$5" = "Only $5" /\
  LLMTranslation.generateUserPrompt "$& off" = "{:input} off".
Proof. split; reflexivity. Qed.

(** ** Language files *)

Lemma pop_cons x l : l <> [] -> Files.pop (x :: l) = Files.pop l.
Proof. destruct l; [contradiction | reflexivity]. Qed.

Lemma split_slash_step c rest :
  Files.split_slash (String c rest) =
  if Ascii.eqb c "/"%char then EmptyString :: Files.split_slash rest
  else match Files.split_slash rest with
       | seg :: segs => String c seg :: segs
       | [] => [String c EmptyString]
       end.
Proof. reflexivity. Qed.

Lemma split_slash_nonempty s : Files.split_slash s <> [].
Proof.
  destruct s as [|c s]; [discriminate|].
  rewrite split_slash_step.
  destruct (Ascii.eqb c "/"); [discriminate|].
  destruct (Files.split_slash s); discriminate.
Qed.

Lemma split_slash_folder folder file :
  exists seg seg2 segs,
    Files.split_slash (folder ++ String "/" file) = seg :: seg2 :: segs.
Proof.
  induction folder as [|c folder IH].
  - change (Files.split_slash (EmptyString ++ String "/" file))
      with (EmptyString :: Files.split_slash file).
    destruct (Files.split_slash file) as [|seg2 segs] eqn:Hfile.
    + now destruct (split_slash_nonempty file).
    + now exists EmptyString, seg2, segs.
  - change ((String c folder ++ String "/" file)%string)
      with (String c (folder ++ String "/" file)).
    rewrite split_slash_step.
    destruct IH as (seg & seg2 & segs & ->).
    destruct (Ascii.eqb c "/"); eauto.
Qed.

Lemma pop_split_slash_folder folder file :
  Files.pop (Files.split_slash (folder ++ String "/" file)) =
  Files.pop (Files.split_slash file).
Proof.
  induction folder as [|c folder IH].
  - change (Files.split_slash (EmptyString ++ String "/" file))
      with (EmptyString :: Files.split_slash file).
    apply pop_cons, split_slash_nonempty.
  - change ((String c folder ++ String "/" file)%string)
      with (String c (folder ++ String "/" file)).
    rewrite split_slash_step.
    destruct (split_slash_folder folder file) as (seg & seg2 & segs & Hsplit).
    rewrite Hsplit in *.
    destruct (Ascii.eqb c "/").
    + rewrite pop_cons by discriminate. exact IH.
    + rewrite pop_cons by discriminate. rewrite pop_cons in IH by discriminate.
      exact IH.
Qed.

Lemma split_slash_no_slash file :
  Files.no_slash file = true -> Files.split_slash file = [file].
Proof.
  induction file as [|c file IH]; [reflexivity|].
  simpl Files.no_slash. rewrite split_slash_step.
  destruct (Ascii.eqb c "/"); simpl; [discriminate|].
  intros H. now rewrite (IH H).
Qed.

Lemma file_name_of_path folder file :
  Files.no_slash file = true ->
  Files.pop (Files.split_slash (folder ++ "/" ++ file)) = Some file.
Proof.
  intros Hfile.
  change (folder ++ "/" ++ file)%string with (folder ++ String "/" file)%string.
  now rewrite pop_split_slash_folder, split_slash_no_slash.
Qed.

Lemma registry_file_names :
  forallb
    (fun e =>
       Files.no_slash (fst e ++ ".json") &&
       Files.endsWith (fst e ++ ".json") ".json" &&
       match (fst e ++ ".json")%string with
       | String c rest =>
           match Language.getLanguageByCode (replace (String c rest) ".json" EmptyString) with
           | Some (code, name) => String.eqb code (fst e) && String.eqb name (snd e)
           | None => false
           end
       | EmptyString => false
       end)
    Language.entries = true.
Proof. vm_compute. reflexivity. Qed.

(** X21.  Every language of the registry is recognised from its file:
    when the output folder lists [<code>.json], whatever the folder's
    path, [getTranslationFilesFromPath] keeps the file and
    [getLanguageCodeByTranslationJson] gives it the language [code]. *)
Theorem registry_files_are_recognised (folder : string) (names : list string)
  (code name : string) :
  assoc code Language.entries = Some name ->
  In (code ++ ".json")%string names ->
  In (Files.mkFile (folder ++ "/" ++ code ++ ".json") (code ++ ".json"))
    (Files.getTranslationFilesFromPath names folder) /\
  Files.getLanguageCodeByTranslationJson (folder ++ "/" ++ code ++ ".json") =
    Some (code, name).
Proof.
  intros Hcode Hlisted.
  pose proof registry_file_names as Hall. rewrite forallb_forall in Hall.
  specialize (Hall _ (assoc_In _ _ _ Hcode)). cbn [fst snd] in Hall.
  apply andb_true_iff in Hall. destruct Hall as [Hall Hlang].
  apply andb_true_iff in Hall. destruct Hall as [Hslash Hends].
  split.
  - unfold Files.getTranslationFilesFromPath. apply in_map_iff.
    exists (code ++ ".json")%string. split; [reflexivity|].
    apply filter_In. now split.
  - unfold Files.getLanguageCodeByTranslationJson.
    rewrite (file_name_of_path _ _ Hslash).
    destruct (code ++ ".json")%string as [|c rest]; [discriminate|].
    destruct (Language.getLanguageByCode (replace (String c rest) ".json" EmptyString))
      as [[code' name']|]; [|discriminate].
    apply andb_true_iff in Hlang. destruct Hlang as [Hc Hn].
    apply String.eqb_eq in Hc, Hn. now subst.
Qed.

Lemma registry_files_are_recognised_witness :
  In (Files.mkFile "locales/out/fr.json" "fr.json")
    (Files.getTranslationFilesFromPath ["README.md"; "fr.json"] "locales/out") /\
  Files.getLanguageCodeByTranslationJson "locales/out/fr.json" = Some ("fr", "French").
Proof.
  apply (registry_files_are_recognised "locales/out" ["README.md"; "fr.json"]
           "fr" "French").
  - reflexivity.
  - simpl. right. left. reflexivity.
Defined.

(** A file whose name is not a registry code followed by [.json] is
    listed all the same and left without a language, so [translatePatch]
    skips it; a name in which [.json] occurs early loses the first
    occurrence. *)
Remark unrecognised_files :
  Files.getLanguageCodeByTranslationJson "out/french.json" = None /\
  Files.getLanguageCodeByTranslationJson "out/fr.json.json" = None /\
  Files.getLanguageCodeByTranslationJson "out/" = None.
Proof. repeat split. Qed.

(** ** The earlier [Language] class *)

Lemma registry_names_truthy :
  forallb (fun e => Earlier.truthy (Some (fst e)) && Earlier.truthy (Some (snd e)))
    Language.entries = true.
Proof. vm_compute. reflexivity. Qed.

(** X22.  The constructor of the earlier [Language] class, on every
    input: from a registry code it stores the display name in both
    fields (the code itself is not kept); from a display name that is
    not a code it returns with both fields undefined; from anything else
    it throws [Invalid language]. *)
Theorem earlier_language_fields (input : string) :
  (forall name,
      Earlier.getLanguageNameByCode input = Some name ->
      Earlier.newLanguage input = Ret (Earlier.mkLanguage (Some name) (Some name))) /\
  (forall code,
      Earlier.getLanguageNameByCode input = None ->
      Earlier.getLanguageCodeByName input = Some code ->
      Earlier.newLanguage input = Ret (Earlier.mkLanguage None None)) /\
  (Earlier.getLanguageNameByCode input = None ->
   Earlier.getLanguageCodeByName input = None ->
   Earlier.newLanguage input = Throw (Error ("Invalid language: " ++ input))).
Proof.
  pose proof registry_names_truthy as Hall. rewrite forallb_forall in Hall.
  split; [|split].
  - intros name Hname. unfold Earlier.newLanguage. rewrite Hname.
    unfold Earlier.getLanguageNameByCode in Hname.
    specialize (Hall _ (assoc_In _ _ _ Hname)). cbn [fst snd] in Hall.
    apply andb_true_iff in Hall. destruct Hall as [_ Htruthy].
    now rewrite Htruthy.
  - intros code Hnone Hcode. unfold Earlier.newLanguage. rewrite Hnone, Hcode.
    unfold Earlier.getLanguageCodeByName in Hcode.
    destruct (find (fun e => String.eqb (snd e) input) Language.entries)
      as [e|] eqn:Hfind; [|discriminate].
    injection Hcode as <-.
    apply find_some in Hfind. destruct Hfind as [Hin _].
    specialize (Hall _ Hin). apply andb_true_iff in Hall. destruct Hall as [Htruthy _].
    now rewrite Htruthy.
  - intros Hnone Hnocode. unfold Earlier.newLanguage. now rewrite Hnone, Hnocode.
Qed.

Lemma earlier_language_fields_witness :
  Earlier.newLanguage "fr" = Ret (Earlier.mkLanguage (Some "French") (Some "French")) /\
  Earlier.newLanguage "French" = Ret (Earlier.mkLanguage None None) /\
  Earlier.newLanguage "Klingon" = Throw (Error "Invalid language: Klingon").
Proof.
  split; [|split].
  - apply (proj1 (earlier_language_fields "fr")). reflexivity.
  - apply (proj1 (proj2 (earlier_language_fields "French")) "fr"); reflexivity.
  - apply (proj2 (proj2 (earlier_language_fields "Klingon"))); reflexivity.
Defined.

(** ** [Batch.create] on an instance that was used before *)

Lemma ceil_div_le L n : 0 < n -> LLMTranslation.ceil_div L n <= L.
Proof.
  intros Hn. destruct (ceil_div_bounds L n Hn) as [_ Hlow].
  destruct (Nat.le_gt_cases (LLMTranslation.ceil_div L n) L) as [Hle|Hgt]; [exact Hle|].
  specialize (Hlow L Hgt). nia.
Qed.

(** X23.  [Batch.create] pushes onto the field [this.batch] and never
    clears it: on an instance whose [batch] already holds chunks, it
    returns those chunks followed by the chunks of the items, so a
    second call on the same instance returns every chunk twice. *)
Theorem create_appends_to_earlier_chunks {T : Type} (items : list T)
  (n fuel : nat) (this_batch : list (list T)) :
  0 < n -> length items <= fuel ->
  exists bs,
    Batch.create fuel items n = Some bs /\
    Batch.create_loop fuel items n 0 this_batch = Some (this_batch ++ bs) /\
    Batch.create_loop fuel items n 0 bs = Some (bs ++ bs).
Proof.
  intros Hn Hfuel.
  pose proof (ceil_div_le (length items) n Hn) as Hle.
  assert (Hloop : forall batch,
             Batch.create_loop fuel items n 0 batch =
             Some (batch ++ map (chunk items n)
                              (seq 0 (LLMTranslation.ceil_div (length items) n)))).
  { intros batch.
    pose proof (create_loop_chunks items n Hn fuel 0 batch) as H.
    rewrite Nat.sub_0_r in H. apply H; lia. }
  exists (map (chunk items n) (seq 0 (LLMTranslation.ceil_div (length items) n))).
  split; [|split].
  - unfold Batch.create. now rewrite Hloop.
  - apply Hloop.
  - apply Hloop.
Qed.

Lemma create_appends_to_earlier_chunks_witness :
  exists bs,
    Batch.create 3 [1; 2; 3] 2 = Some bs /\
    Batch.create_loop 3 [1; 2; 3] 2 0 [[7]] = Some ([[7]] ++ bs) /\
    Batch.create_loop 3 [1; 2; 3] 2 0 bs = Some (bs ++ bs).
Proof.
  apply (create_appends_to_earlier_chunks [1; 2; 3] 2 3 [[7]]); simpl; lia.
Defined.
